(** * base-ts-baileys-mysql: the MySQL history adapter and the bot's flows

    A shallow embedding of [src/MysqlAdapter.ts] (the pooled history store)
    and of the application file that declares the dialogue flows and the
    HTTP handlers, with the properties of the specification proved about
    them.

    Layout:
    - [Js]: the JavaScript values and builtins the sources use
      ([JSON.stringify], [JSON.parse], [toLocaleLowerCase], [includes]);
    - [Mysql]: the environment of the adapter, a connection pool and a
      [history] table;
    - [Async]: promises as trees of awaited requests, with [try]/[catch]/
      [finally];
    - [MysqlAdapter]: the adapter's methods, one definition per method;
    - [EventLoop]: interleaved executions of the adapter's tasks;
    - [App]: the flows and the [/v1/blacklist] handler;
    - [Behaviour]: the statements of further properties of the code;
    - the theorems: [AppFacts], [LoopFacts], [JsonFacts], [CallFacts] for
      the properties of the specification, then [AdapterFacts],
      [ScheduleFacts], [FlowFacts], [InvariantFacts] and [RoundTripFacts]
      for what the code shows besides. *)

From Stdlib Require Import ZArith NArith Ascii String Decimal DecimalN Bool Lia.
From stdpp Require Import base option list gmap strings.

Set Default Proof Using "Type".
Local Open Scope Z_scope.

(* ===================================================================== *)
(** * JavaScript values and builtins *)
(* ===================================================================== *)

Module Js.

(** A value of type [any], as far as the sources build or inspect one.
    Numbers are the integers; strings are byte strings (UTF-8 text);
    an object is the list of its own properties in enumeration order. *)
#[warnings="-register-all"]
Inductive JsValue : Type :=
| JsUndefined
| JsNull
| JsBool (b : bool)
| JsNumber (n : Z)
| JsString (s : string)
| JsArray (items : list JsValue)
| JsObject (props : list (string * JsValue)).

(** ** Characters *)

(** The double quote (34) and the backslash (92). *)
Abbreviation DQUOTE := (Ascii false true false false false true false false).
Abbreviation BSLASH := (Ascii false false true true true false true false).

Definition code (c : ascii) : N := N_of_ascii c.

Definition is_digit (c : ascii) : bool := ((48 <=? code c) && (code c <=? 57))%N.

(** JSON white space: space, tab, line feed, carriage return. *)
Definition is_ws (c : ascii) : bool :=
  ((code c =? 32) || (code c =? 9) || (code c =? 10) || (code c =? 13))%N.

Fixpoint skip_ws (s : list ascii) : list ascii :=
  match s with
  | c :: r => if is_ws c then skip_ws r else s
  | [] => []
  end.

Definition hex_digit (n : N) : ascii :=
  (if n <? 10 then ascii_of_N (48 + n) else ascii_of_N (87 + n))%N.

Definition hex_value (c : ascii) : option N :=
  let n := code c in
  (if (48 <=? n) && (n <=? 57) then Some (n - 48)
   else if (97 <=? n) && (n <=? 102) then Some (n - 87)
   else if (65 <=? n) && (n <=? 70) then Some (n - 55)
   else None)%N.

(** The bytes of the code unit [n] in a byte string. *)
Definition utf8 (n : N) : list ascii :=
  (if n <? 128 then [ascii_of_N n]
   else if n <? 2048 then [ascii_of_N (192 + n / 64); ascii_of_N (128 + n mod 64)]
   else [ascii_of_N (224 + n / 4096); ascii_of_N (128 + (n / 64) mod 64);
         ascii_of_N (128 + n mod 64)])%N.

(** ** [JSON.stringify] *)

(** QuoteJSONString: the two-character escapes, [\u00xx] for the other
    control characters, every other character as it is. *)
Definition escape (c : ascii) : list ascii :=
  let n := code c in
  (if n =? 34 then [BSLASH; DQUOTE]
   else if n =? 92 then [BSLASH; BSLASH]
   else if n =? 8 then [BSLASH; "b"%char]
   else if n =? 12 then [BSLASH; "f"%char]
   else if n =? 10 then [BSLASH; "n"%char]
   else if n =? 13 then [BSLASH; "r"%char]
   else if n =? 9 then [BSLASH; "t"%char]
   else if n <? 32 then
     [BSLASH; "u"%char; "0"%char; "0"%char; hex_digit (n / 16); hex_digit (n mod 16)]
   else [c])%N.

Definition quote (s : list ascii) : list ascii :=
  (DQUOTE :: concat (map escape s)) ++ [DQUOTE].

Fixpoint uint_chars (d : uint) : list ascii :=
  match d with
  | Nil => []
  | D0 d => "0"%char :: uint_chars d
  | D1 d => "1"%char :: uint_chars d
  | D2 d => "2"%char :: uint_chars d
  | D3 d => "3"%char :: uint_chars d
  | D4 d => "4"%char :: uint_chars d
  | D5 d => "5"%char :: uint_chars d
  | D6 d => "6"%char :: uint_chars d
  | D7 d => "7"%char :: uint_chars d
  | D8 d => "8"%char :: uint_chars d
  | D9 d => "9"%char :: uint_chars d
  end.

(** Number::toString on an integer: decimal digits, a minus sign first
    when negative. *)
Definition number_chars (n : Z) : list ascii :=
  if n <? 0 then "-"%char :: uint_chars (N.to_uint (Z.abs_N n))
  else uint_chars (N.to_uint (Z.abs_N n)).

Fixpoint join_comma (parts : list (list ascii)) : list ascii :=
  match parts with
  | [] => []
  | [p] => p
  | p :: ps => p ++ ","%char :: join_comma ps
  end.

Definition chars (s : string) : list ascii := list_ascii_of_string s.

(** SerializeJSONProperty. [None] is JavaScript's [undefined]: the result
    for [undefined] itself. Inside an array [undefined] is written [null];
    a property whose value is [undefined] is left out. *)
Fixpoint serialize (v : JsValue) : option (list ascii) :=
  match v with
  | JsUndefined => None
  | JsNull => Some (chars "null")
  | JsBool true => Some (chars "true")
  | JsBool false => Some (chars "false")
  | JsNumber n => Some (number_chars n)
  | JsString s => Some (quote (chars s))
  | JsArray items =>
      let element x := default (chars "null") (serialize x) in
      Some ("["%char :: join_comma (map element items) ++ ["]"%char])
  | JsObject props =>
      let member (kx : string * JsValue) :=
        match serialize kx.2 with
        | Some t => Some (quote (chars kx.1) ++ ":"%char :: t)
        | None => None
        end in
      Some ("{"%char :: join_comma (omap member props) ++ ["}"%char])
  end.

(** The text of an array element and of an object member, as
    [serialize] writes them. *)
Definition element (x : JsValue) : list ascii :=
  default (chars "null") (serialize x).

Definition member (kx : string * JsValue) : option (list ascii) :=
  match serialize kx.2 with
  | Some t => Some (quote (chars kx.1) ++ ":"%char :: t)
  | None => None
  end.

Definition JSON_stringify (v : JsValue) : option string :=
  string_of_list_ascii <$> serialize v.

(** ** [JSON.parse] *)

(** The characters of a string literal after its opening quote, up to the
    closing quote. A raw control character is a syntax error. *)
Fixpoint parse_string_body (s : list ascii) : option (list ascii * list ascii) :=
  match s with
  | [] => None
  | DQUOTE :: r => Some ([], r)
  | BSLASH :: e :: r =>
      let simple (c : ascii) :=
        '(str, r') ← parse_string_body r; Some (c :: str, r') in
      if (code e =? 34)%N then simple DQUOTE
      else if (code e =? 92)%N then simple BSLASH
      else if (code e =? 47)%N then simple "/"%char
      else if (code e =? 98)%N then simple (ascii_of_N 8)
      else if (code e =? 102)%N then simple (ascii_of_N 12)
      else if (code e =? 110)%N then simple (ascii_of_N 10)
      else if (code e =? 114)%N then simple (ascii_of_N 13)
      else if (code e =? 116)%N then simple (ascii_of_N 9)
      else if (code e =? 117)%N then
        match r with
        | a :: b :: c :: d :: r4 =>
            match hex_value a, hex_value b, hex_value c, hex_value d with
            | Some x3, Some x2, Some x1, Some x0 =>
                '(str, r') ← parse_string_body r4;
                Some (utf8 (4096 * x3 + 256 * x2 + 16 * x1 + x0)%N ++ str, r')
            | _, _, _, _ => None
            end
        | _ => None
        end
      else None
  | c :: r =>
      if (code c <? 32)%N then None
      else '(str, r') ← parse_string_body r; Some (c :: str, r')
  end.

(** The longest prefix of decimal digits. *)
Fixpoint chars_uint (s : list ascii) : uint * list ascii :=
  match s with
  | c :: r =>
      let next (f : uint -> uint) := let '(d, r') := chars_uint r in (f d, r') in
      if (code c =? 48)%N then next D0
      else if (code c =? 49)%N then next D1
      else if (code c =? 50)%N then next D2
      else if (code c =? 51)%N then next D3
      else if (code c =? 52)%N then next D4
      else if (code c =? 53)%N then next D5
      else if (code c =? 54)%N then next D6
      else if (code c =? 55)%N then next D7
      else if (code c =? 56)%N then next D8
      else if (code c =? 57)%N then next D9
      else (Nil, s)
  | [] => (Nil, [])
  end.

(** A fraction or an exponent follows. *)
Definition continues_number (r : list ascii) : bool :=
  match r with
  | c :: _ => Ascii.eqb c "."%char || Ascii.eqb c "e"%char || Ascii.eqb c "E"%char
  | [] => false
  end.

(** A number literal: an optional minus sign and an integer part without
    a superfluous leading zero. A fraction or an exponent leaves the
    integers, the numbers of this model, and is refused. *)
Definition parse_number (s : list ascii) : option (Z * list ascii) :=
  let '(neg, s1) :=
    match s with
    | c :: t => if Ascii.eqb c "-"%char then (true, t) else (false, s)
    | [] => (false, s)
    end in
  let '(d, r) := chars_uint s1 in
  if uint_eq_dec d (unorm d) then
    if continues_number r then None
    else let m := Z.of_N (N.of_uint d) in Some (if neg then - m else m, r)
  else None.

(** CreateDataProperty while parsing an object literal: a repeated key
    keeps its place and takes the later value. *)
Fixpoint define_property (o : list (string * JsValue)) (k : string) (v : JsValue)
  : list (string * JsValue) :=
  match o with
  | [] => [(k, v)]
  | (k', v') :: o' =>
      if String.eqb k' k then (k', v) :: o' else (k', v') :: define_property o' k v
  end.

Definition build_object (members : list (string * JsValue)) : JsValue :=
  JsObject (fold_left (fun o '(k, v) => define_property o k v) members []).

(** Recursive descent on the JSON grammar; [fuel] bounds the number of
    nested and successive values. *)
Fixpoint parse_value (fuel : nat) (s : list ascii) : option (JsValue * list ascii) :=
  match fuel with
  | O => None
  | S fuel' =>
      match skip_ws s with
      | "n"%char :: "u"%char :: "l"%char :: "l"%char :: r => Some (JsNull, r)
      | "t"%char :: "r"%char :: "u"%char :: "e"%char :: r => Some (JsBool true, r)
      | "f"%char :: "a"%char :: "l"%char :: "s"%char :: "e"%char :: r =>
          Some (JsBool false, r)
      | DQUOTE :: r =>
          '(str, r') ← parse_string_body r;
          Some (JsString (string_of_list_ascii str), r')
      | "["%char :: r =>
          match skip_ws r with
          | "]"%char :: r' => Some (JsArray [], r')
          | _ => '(items, r') ← parse_elements fuel' r; Some (JsArray items, r')
          end
      | "{"%char :: r =>
          match skip_ws r with
          | "}"%char :: r' => Some (JsObject [], r')
          | _ => '(members, r') ← parse_members fuel' r; Some (build_object members, r')
          end
      | r => '(n, r') ← parse_number r; Some (JsNumber n, r')
      end
  end
with parse_elements (fuel : nat) (s : list ascii) : option (list JsValue * list ascii) :=
  match fuel with
  | O => None
  | S fuel' =>
      '(v, r) ← parse_value fuel' s;
      match skip_ws r with
      | ","%char :: r' => '(vs, r'') ← parse_elements fuel' r'; Some (v :: vs, r'')
      | "]"%char :: r' => Some ([v], r')
      | _ => None
      end
  end
with parse_members (fuel : nat) (s : list ascii)
  : option (list (string * JsValue) * list ascii) :=
  match fuel with
  | O => None
  | S fuel' =>
      match skip_ws s with
      | DQUOTE :: r =>
          '(k, r1) ← parse_string_body r;
          match skip_ws r1 with
          | ":"%char :: r2 =>
              '(v, r3) ← parse_value fuel' r2;
              match skip_ws r3 with
              | ","%char :: r4 =>
                  '(ms, r5) ← parse_members fuel' r4;
                  Some ((string_of_list_ascii k, v) :: ms, r5)
              | "}"%char :: r4 => Some ([(string_of_list_ascii k, v)], r4)
              | _ => None
              end
          | _ => None
          end
      | _ => None
      end
  end.

(** [JSON.parse text]: one value, then only white space. [None] stands
    for the SyntaxError it throws, and for a text with a number that is
    not an integer, which has no value here. *)
Definition JSON_parse (text : string) : option JsValue :=
  let s := chars text in
  '(v, r) ← parse_value (S (length s)) s;
  match skip_ws r with
  | [] => Some v
  | _ => None
  end.

(** ** Values that JSON represents *)

Definition safe_integer (n : Z) : bool :=
  (- 9007199254740991 <=? n) && (n <=? 9007199254740991).

Fixpoint distinct (ks : list string) : bool :=
  match ks with
  | [] => true
  | k :: ks' => negb (existsb (String.eqb k) ks') && distinct ks'
  end.

(** The values in the image of [JSON.parse]: no [undefined] anywhere, safe
    integers, objects with distinct keys. *)
Fixpoint json_serializable (v : JsValue) : bool :=
  match v with
  | JsUndefined => false
  | JsNull | JsBool _ | JsString _ => true
  | JsNumber n => safe_integer n
  | JsArray items => forallb json_serializable items
  | JsObject props =>
      distinct (map fst props) && forallb (fun kx => json_serializable kx.2) props
  end.

(** What may follow a value in a JSON text: nothing, or a comma or a
    closing bracket or brace. *)
Definition ends_value (rest : list ascii) : Prop :=
  match rest with
  | [] => True
  | c :: _ => c = ","%char \/ c = "]"%char \/ c = "}"%char
  end.

(** The characters a serialized value can begin with. *)
Definition value_start (c : ascii) : bool :=
  is_digit c || (code c =? 45)%N || (code c =? 34)%N || (code c =? 91)%N ||
  (code c =? 123)%N || (code c =? 110)%N || (code c =? 116)%N || (code c =? 102)%N.

(** ** Strings *)

(** [toLocaleLowerCase] on the ASCII letters. *)
Definition lower (c : ascii) : ascii :=
  (if (65 <=? code c) && (code c <=? 90) then ascii_of_N (code c + 32) else c)%N.

Definition toLocaleLowerCase (s : string) : string :=
  string_of_list_ascii (map lower (chars s)).

Fixpoint starts_with (p s : list ascii) : bool :=
  match p, s with
  | [], _ => true
  | a :: p', b :: s' => Ascii.eqb a b && starts_with p' s'
  | _ :: _, [] => false
  end.

Fixpoint includes_chars (s p : list ascii) : bool :=
  starts_with p s ||
  match s with
  | [] => false
  | _ :: s' => includes_chars s' p
  end.

(** [s.includes(p)] *)
Definition includes (s p : string) : bool := includes_chars (chars s) (chars p).

(** The string a template literal puts for [state.get(key)]. *)
Definition template_text (v : option string) : string :=
  match v with
  | Some s => s
  | None => "undefined"
  end.

End Js.

Import Js.

(* ===================================================================== *)
(** * The environment: a connection pool and the [history] table *)
(* ===================================================================== *)

Module Mysql.

Record MysqlAdapterCredentials : Type := {
  host : string;
  user : string;
  database : string;
  password : string;
  port : Z
}.

(** The options object handed to [mysql.createPool]. *)
Record PoolOptions : Type := {
  opt_host : string;
  opt_user : string;
  opt_database : string;
  opt_password : string;
  opt_port : Z;
  enableKeepAlive : bool;
  keepAliveInitialDelay : Z;
  waitForConnections : bool;
  connectionLimit : nat;
  queueLimit : nat
}.

(** A pool: its options, whether [end()] has been called on it, and how
    many of its connections are checked out. *)
Record Pool : Type := {
  config : PoolOptions;
  closed : bool;
  checked_out : nat
}.

(** A [Pool] handle is the position of the pool among the pools created
    so far; a connection remembers the pool it was taken from. *)
Record PoolConnection : Type := { of_pool : nat }.

(** A row of [history]; [O] is the type of [options]: text in the table,
    a value once [getPrevByNumber] has parsed it. *)
Record Row (O : Type) : Type := {
  id : Z;
  ref : string;
  keyword : string;
  answer : string;
  refSerialize : string;
  phone : string;
  options : O;
  created_at : Z
}.
Arguments id {O}.
Arguments ref {O}.
Arguments keyword {O}.
Arguments answer {O}.
Arguments refSerialize {O}.
Arguments phone {O}.
Arguments options {O}.
Arguments created_at {O}.

Record Table : Type := {
  rows : list (Row string);      (* in insertion order *)
  auto_increment : Z             (* the id the next INSERT receives *)
}.

(** The server: the [history] table when it exists, the comparison that
    the collation of its text columns induces ([phone = ?]), and the
    clock behind [CURRENT_TIMESTAMP]. *)
Record Database : Type := {
  history : option Table;
  collation : string -> string -> bool;
  now : Z
}.

Inductive JsError : Type :=
| PoolIsClosed            (* getConnection on a pool after end() *)
| NoConnectionsAvailable  (* pool exhausted and waitForConnections off *)
| ConnectionLost          (* the server cannot be reached *)
| NoSuchTable             (* history does not exist *)
| BindUndefined           (* execute with undefined among the values *)
| SyntaxError.            (* JSON.parse *)

Inductive Sql : Type :=
| SELECT_history_BY_phone (from : string)
    (* SELECT * FROM history WHERE phone = ? ORDER BY id DESC *)
| INSERT_INTO_history (values : list (option string))
    (* INSERT INTO history (ref, keyword, answer, refSerialize, phone,
       options) VALUES (?, ?, ?, ?, ?, ?); None is undefined *)
| CREATE_TABLE_IF_NOT_EXISTS_history
| SHOW_TABLES_LIKE_history.

(** What a promise of the driver waits for. *)
Inductive Request : Type :=
| PoolGetConnection (p : nat)
| ConnectionQuery (c : PoolConnection) (q : Sql)
| ConnectionExecute (c : PoolConnection) (q : Sql)
| PoolEnd (p : nat).

Inductive Payload : Type :=
| Connection (c : PoolConnection)
| RowSet (rs : list (Row string))     (* the rows of a SELECT *)
| NameSet (names : list string)       (* the rows of SHOW TABLES *)
| OkPacket.                           (* INSERT, CREATE TABLE, end() *)

Inductive Reply : Type :=
| Resolved (v : Payload)
| Rejected (e : JsError).

Inductive LogLine : Type :=
| console_log_line (msg : string)
| console_error_line (msg : string) (error : JsError).

(** Everything the adapter's code reads or writes: the pools created so
    far, the server, the adapter's own fields and the console. *)
Record World : Type := {
  pools : list Pool;
  db : Database;
  this_pool : nat;                             (* this.pool *)
  this_credentials : MysqlAdapterCredentials;  (* this.credentials *)
  reconnectInterval : bool;                    (* the interval is armed *)
  console : list LogLine
}.

Definition set_pools (f : list Pool -> list Pool) (w : World) : World :=
  {| pools := f (pools w); db := db w; this_pool := this_pool w;
     this_credentials := this_credentials w;
     reconnectInterval := reconnectInterval w; console := console w |}.

Definition set_db (d : Database) (w : World) : World :=
  {| pools := pools w; db := d; this_pool := this_pool w;
     this_credentials := this_credentials w;
     reconnectInterval := reconnectInterval w; console := console w |}.

Definition set_this_pool (p : nat) (w : World) : World :=
  {| pools := pools w; db := db w; this_pool := p;
     this_credentials := this_credentials w;
     reconnectInterval := reconnectInterval w; console := console w |}.

Definition set_this_credentials (c : MysqlAdapterCredentials) (w : World) : World :=
  {| pools := pools w; db := db w; this_pool := this_pool w;
     this_credentials := c;
     reconnectInterval := reconnectInterval w; console := console w |}.

Definition set_reconnectInterval (b : bool) (w : World) : World :=
  {| pools := pools w; db := db w; this_pool := this_pool w;
     this_credentials := this_credentials w;
     reconnectInterval := b; console := console w |}.

Definition print (l : LogLine) (w : World) : World :=
  {| pools := pools w; db := db w; this_pool := this_pool w;
     this_credentials := this_credentials w;
     reconnectInterval := reconnectInterval w; console := console w ++ [l] |}.

Definition set_closed (pl : Pool) : Pool :=
  {| config := config pl; closed := true; checked_out := checked_out pl |}.

Definition set_checked_out (n : nat) (pl : Pool) : Pool :=
  {| config := config pl; closed := closed pl; checked_out := n |}.

(** A connection leaves the pool, comes back to it. *)
Definition check_out (pl : Pool) : Pool := set_checked_out (S (checked_out pl)) pl.

Definition check_in (pl : Pool) : Pool := set_checked_out (Nat.pred (checked_out pl)) pl.

(** The number of connections of pool [p] that are checked out. *)
Definition in_use (w : World) (p : nat) : nat :=
  match pools w !! p with
  | Some pl => checked_out pl
  | None => O
  end.

(** ** The table *)

Fixpoint insert_desc (r : Row string) (l : list (Row string)) : list (Row string) :=
  match l with
  | [] => [r]
  | x :: l' => if id x <=? id r then r :: l else x :: insert_desc r l'
  end.

(** ORDER BY id DESC *)
Definition order_by_id_desc (l : list (Row string)) : list (Row string) :=
  foldr insert_desc [] l.

(** WHERE phone = ? *)
Definition where_phone (d : Database) (from : string) (l : list (Row string))
  : list (Row string) :=
  filter (fun r => collation d (phone r) from = true) l.

Definition set_history (t : option Table) (d : Database) : Database :=
  {| history := t; collation := collation d; now := now d |}.

(** One statement on the server. INSERT gives the row the next
    auto-increment id and the current timestamp. *)
Definition run_sql (q : Sql) (d : Database) : Reply * Database :=
  match q with
  | SHOW_TABLES_LIKE_history =>
      match history d with
      | Some _ => (Resolved (NameSet ["history"%string]), d)
      | None => (Resolved (NameSet []), d)
      end
  | CREATE_TABLE_IF_NOT_EXISTS_history =>
      match history d with
      | Some _ => (Resolved OkPacket, d)
      | None =>
          (Resolved OkPacket,
           set_history (Some {| rows := []; auto_increment := 1 |}) d)
      end
  | SELECT_history_BY_phone from =>
      match history d with
      | Some t => (Resolved (RowSet (order_by_id_desc (where_phone d from (rows t)))), d)
      | None => (Rejected NoSuchTable, d)
      end
  | INSERT_INTO_history values =>
      match history d with
      | Some t =>
          match values with
          | [Some v_ref; Some v_keyword; Some v_answer; Some v_refSerialize;
             Some v_phone; Some v_options] =>
              let row :=
                {| id := auto_increment t; ref := v_ref; keyword := v_keyword;
                   answer := v_answer; refSerialize := v_refSerialize;
                   phone := v_phone; options := v_options;
                   created_at := now d |} in
              (Resolved OkPacket,
               set_history (Some {| rows := rows t ++ [row];
                                    auto_increment := auto_increment t + 1 |}) d)
          | _ => (Rejected BindUndefined, d)
          end
      | None => (Rejected NoSuchTable, d)
      end
  end.

(** ** The driver

    How a pending request is settled. [reachable] says whether the
    server can be reached at that moment. [None]: the request stays
    pending (the pool is exhausted and the caller waits in its queue).
    [getConnection] on a pool whose [end()] was called is refused. *)
Definition settle (reachable : bool) (rq : Request) (w : World) : option (Reply * World) :=
  match rq with
  | PoolGetConnection p =>
      match pools w !! p with
      | None => Some (Rejected PoolIsClosed, w)
      | Some pl =>
          if closed pl then Some (Rejected PoolIsClosed, w)
          else if negb reachable then Some (Rejected ConnectionLost, w)
          else if (checked_out pl <? connectionLimit (config pl))%nat then
            Some (Resolved (Connection {| of_pool := p |}), set_pools (alter check_out p) w)
          else if waitForConnections (config pl) then None
          else Some (Rejected NoConnectionsAvailable, w)
      end
  | ConnectionQuery _ q =>
      if reachable then
        let '(r, d) := run_sql q (db w) in Some (r, set_db d w)
      else Some (Rejected ConnectionLost, w)
  | ConnectionExecute _ q =>
      if reachable then
        let '(r, d) := run_sql q (db w) in Some (r, set_db d w)
      else Some (Rejected ConnectionLost, w)
  | PoolEnd _ =>
      if reachable then Some (Resolved OkPacket, w)
      else Some (Rejected ConnectionLost, w)
  end.

(** [connection.release()]: the connection goes back to its pool. *)
Definition release_connection (c : PoolConnection) (w : World) : World :=
  set_pools (alter check_in (of_pool c)) w.

(** The synchronous part of [pool.end()]: the pool is closed at once. *)
Definition close_pool (p : nat) (w : World) : World :=
  set_pools (alter set_closed p) w.

End Mysql.
Import Mysql.

(* ===================================================================== *)
(** * Promises *)
(* ===================================================================== *)

Module Async.

(** The tasks the sources start without awaiting them, and the calls
    that arrive from outside. *)
Inductive TaskName : Type :=
| task_init              (* this.init() *)
| task_recreatePool      (* this.pool.end().then(...).catch(...) *)
| task_destroy           (* this.pool.end() in destroy *)
| task_checkConnection   (* the interval's callback *)
| task_save
| task_getPrevByNumber.

(** The body of an [async] function up to its settlement:
    - [Return], [Throw]: the promise is fulfilled, rejected;
    - [Await rq k]: the body is suspended on a promise of the driver;
    - [Sync f k]: synchronous code on the fields and the environment;
    - [Detach n p k]: [p] is started and not awaited. *)
Inductive Async (A : Type) : Type :=
| Return (a : A)
| Throw (e : JsError)
| Await (rq : Request) (k : Reply -> Async A)
| Sync {B : Type} (f : World -> B * World) (k : B -> Async A)
| Detach (n : TaskName) (p : Async unit) (k : Async A).
Arguments Return {A}.
Arguments Throw {A}.
Arguments Await {A}.
Arguments Sync {A B}.
Arguments Detach {A}.

(** [await p; f] *)
Fixpoint bind {A B : Type} (p : Async A) (f : A -> Async B) : Async B :=
  match p with
  | Return a => f a
  | Throw e => Throw e
  | Await rq k => Await rq (fun r => bind (k r) f)
  | Sync g k => Sync g (fun b => bind (k b) f)
  | Detach n q k => Detach n q (bind k f)
  end.

(** [try { p } catch (error) { h error }] *)
Fixpoint try_catch {A : Type} (p : Async A) (h : JsError -> Async A) : Async A :=
  match p with
  | Return a => Return a
  | Throw e => h e
  | Await rq k => Await rq (fun r => try_catch (k r) h)
  | Sync g k => Sync g (fun b => try_catch (k b) h)
  | Detach n q k => Detach n q (try_catch k h)
  end.

(** [try { p } finally { f }]: [f] runs on every exit of [p], which then
    settles as it would have. *)
Fixpoint finally {A : Type} (p : Async A) (f : Async unit) : Async A :=
  match p with
  | Return a => bind f (fun _ => Return a)
  | Throw e => bind f (fun _ => Throw e)
  | Await rq k => Await rq (fun r => finally (k r) f)
  | Sync g k => Sync g (fun b => finally (k b) f)
  | Detach n q k => Detach n q (finally k f)
  end.

#[global] Instance Async_ret : MRet Async := @Return.
#[global] Instance Async_bind : MBind Async := fun A B f p => bind p f.

(** Synchronous statements. *)
Definition read {B : Type} (g : World -> B) : Async B :=
  Sync (fun w => (g w, w)) Return.

Definition write (g : World -> World) : Async unit :=
  Sync (fun w => (tt, g w)) Return.

Definition console_log (msg : string) : Async unit :=
  write (print (console_log_line msg)).

Definition console_error (msg : string) (error : JsError) : Async unit :=
  write (print (console_error_line msg error)).

(** ** Where a body stands *)

Inductive Status (A : Type) : Type :=
| Returned (a : A)
| Thrown (e : JsError)
| Waiting (rq : Request) (k : Reply -> Async A).
Arguments Returned {A}.
Arguments Thrown {A}.
Arguments Waiting {A}.

(** Run [p] to its first suspension, as a call of an [async] function
    does; the tasks it detaches are run to theirs and collected. *)
Fixpoint advance {A : Type} (p : Async A) (w : World)
    (detached : list (TaskName * Status unit))
  : World * list (TaskName * Status unit) * Status A :=
  match p with
  | Return a => (w, detached, Returned a)
  | Throw e => (w, detached, Thrown e)
  | Await rq k => (w, detached, Waiting rq k)
  | Sync f k => let '(b, w') := f w in advance (k b) w' detached
  | Detach n q k =>
      let '(w', detached', st) := advance q w detached in
      advance k w' (detached' ++ [(n, st)])
  end.

(** ** One call, run to its end

    [run p reach w] runs the single call [p] from [w] with nothing else
    going on: each awaited request is settled at once, the server being
    reachable or not as the next element of [reach] says (reachable once
    [reach] is used up). A detached task is started and left behind. *)
Inductive Outcome (A : Type) : Type :=
| Fulfilled (a : A)
| Failed (e : JsError)
| Pending.
Arguments Fulfilled {A}.
Arguments Failed {A}.
Arguments Pending {A}.

Fixpoint run {A : Type} (p : Async A) (reach : list bool) (w : World)
  : World * list bool * Outcome A :=
  match p with
  | Return a => (w, reach, Fulfilled a)
  | Throw e => (w, reach, Failed e)
  | Await rq k =>
      match settle (hd true reach) rq w with
      | Some (r, w') => run (k r) (tl reach) w'
      | None => (w, reach, Pending)
      end
  | Sync f k => let '(b, w') := f w in run (k b) reach w'
  | Detach _ q k => run k reach (advance q w []).1.1
  end.

End Async.
Import Async.

(* ===================================================================== *)
(** * [class MysqlAdapter] *)
(* ===================================================================== *)

Module MysqlAdapter.

(** The argument of [save]. [answer] is declared [any] and bound to a
    [longtext] column: it is taken here as the text the column gets. *)
Record Ctx : Type := {
  ctx_ref : string;
  ctx_keyword : string;
  ctx_answer : string;
  ctx_refSerialize : string;
  ctx_from : string;
  ctx_options : JsValue
}.

(** What [getPrevByNumber] returns: the row, or [{}]. *)
Inductive Prev : Type :=
| PrevRow (row : Row JsValue)
| PrevEmpty.

(** [mysql.createPool({ host: ..., enableKeepAlive: true, ... })] *)
Definition pool_options (c : MysqlAdapterCredentials) : PoolOptions :=
  {| opt_host := host c;
     opt_user := user c;
     opt_database := database c;
     opt_password := password c;
     opt_port := port c;
     enableKeepAlive := true;
     keepAliveInitialDelay := 10000;
     waitForConnections := true;
     connectionLimit := 10;
     queueLimit := 0 |}.

Definition fresh_pool (c : MysqlAdapterCredentials) : Pool :=
  {| config := pool_options c; closed := false; checked_out := 0 |}.

Definition createPool (c : MysqlAdapterCredentials) : Async nat :=
  Sync (fun w => (length (pools w), set_pools (fun ps => ps ++ [fresh_pool c]) w)) Return.

(** [pool.getConnection()] *)
Definition pool_getConnection (p : nat) : Async PoolConnection :=
  Await (PoolGetConnection p) (fun r =>
    match r with
    | Resolved (Connection c) => Return c
    | Resolved _ => Throw ConnectionLost
    | Rejected e => Throw e
    end).

(** [connection.query(sql)] and [connection.execute(sql, values)] *)
Definition connection_query (c : PoolConnection) (q : Sql) : Async Payload :=
  Await (ConnectionQuery c q) (fun r =>
    match r with
    | Resolved v => Return v
    | Rejected e => Throw e
    end).

Definition connection_execute (c : PoolConnection) (q : Sql) : Async Payload :=
  Await (ConnectionExecute c q) (fun r =>
    match r with
    | Resolved v => Return v
    | Rejected e => Throw e
    end).

Definition connection_release (c : PoolConnection) : Async unit :=
  write (release_connection c).

(** [pool.end()]: closes the pool, then settles once its connections
    are gone. *)
Definition pool_end (p : nat) : Async unit :=
  write (close_pool p);;
  Await (PoolEnd p) (fun r =>
    match r with
    | Resolved _ => Return tt
    | Rejected e => Throw e
    end).

Definition getConnection : Async PoolConnection :=
  try_catch
    (p ← read this_pool;
     connection ← pool_getConnection p;
     Return connection)
    (fun error =>
       console_error "Error acquiring connection:" error;;
       Throw error).

(** The frame the four operations share:
<<
    let connection: PoolConnection | undefined;
    try { connection = await this.getConnection(); body }
    catch (error) { handler }
    finally { if (connection) { connection.release(); } }
>>
    When [getConnection] throws, [connection] is still [undefined]: the
    handler runs and nothing is released. Once it is assigned, [body]
    runs under the handler and the connection is released on every exit. *)
Definition with_connection {A : Type} (body : PoolConnection -> Async A)
    (handler : JsError -> Async A) : Async A :=
  acquired ← try_catch (connection ← getConnection; Return (inr connection))
                       (fun error => Return (inl error));
  match acquired with
  | inl error => handler error
  | inr connection =>
      finally (try_catch (body connection) handler) (connection_release connection)
  end.

(** [Array.isArray(rows) && rows.length > 0], then [rows[0]]; the
    entries of a name set have no [options], on which [JSON.parse] throws. *)
Definition first_row (rows : Payload) : option (option (Row string)) :=
  match rows with
  | RowSet (row :: _) => Some (Some row)
  | NameSet (_ :: _) => Some None
  | _ => None
  end.

(** [row.options = JSON.parse(row.options)] *)
Definition with_options {O O' : Type} (row : Row O) (o : O') : Row O' :=
  {| id := id row; ref := ref row; keyword := keyword row; answer := answer row;
     refSerialize := refSerialize row; phone := phone row; options := o;
     created_at := created_at row |}.

Definition getPrevByNumber (from : string) : Async Prev :=
  with_connection
    (fun connection =>
       rows ← connection_query connection (SELECT_history_BY_phone from);
       match first_row rows with
       | Some (Some row) =>
           match JSON_parse (options row) with
           | Some parsed => Return (PrevRow (with_options row parsed))
           | None => Throw SyntaxError
           end
       | Some None => Throw SyntaxError
       | None => Return PrevEmpty
       end)
    (fun error =>
       console_error "Error in getPrevByNumber:" error;;
       Throw error).

Definition save (ctx : Ctx) : Async unit :=
  with_connection
    (fun connection =>
       let values :=
         [Some (ctx_ref ctx);
          Some (ctx_keyword ctx);
          Some (ctx_answer ctx);
          Some (ctx_refSerialize ctx);
          Some (ctx_from ctx);
          JSON_stringify (ctx_options ctx)] in
       connection_execute connection (INSERT_INTO_history values);;
       Return tt)
    (fun error =>
       console_error "Error in save:" error;;
       Throw error).

Definition createTable : Async unit :=
  with_connection
    (fun connection =>
       connection_query connection CREATE_TABLE_IF_NOT_EXISTS_history;;
       console_log "Table history ensured.")
    (fun error =>
       console_error "Error creating table:" error;;
       Throw error).

(** [(rows as any[]).length === 0] *)
Definition no_rows (rows : Payload) : bool :=
  match rows with
  | RowSet [] | NameSet [] => true
  | _ => false
  end.

Definition checkTableExists : Async unit :=
  with_connection
    (fun connection =>
       rows ← connection_query connection SHOW_TABLES_LIKE_history;
       if no_rows rows then createTable else Return tt)
    (fun error =>
       console_error "Error checking table existence:" error;;
       Throw error).

Definition init : Async unit :=
  try_catch
    (checkTableExists;;
     console_log "Database initialized and table checked.")
    (fun error => console_error "Initialization error:" error).

(** The promise chain that [recreatePool] leaves behind:
    [this.pool.end().then(() => { ... }).catch(err => ...)]. *)
Definition recreatePool_chain (p : nat) : Async unit :=
  try_catch
    (pool_end p;;
     credentials ← read this_credentials;
     fresh ← createPool credentials;
     write (set_this_pool fresh);;
     Detach task_init
       (init;;
        console_log "Reconnected to database successfully.")
       (Return tt))
    (fun err => console_error "Error ending pool during reconnection:" err).

Definition recreatePool : Async unit :=
  console_log "Recreating connection pool...";;
  p ← read this_pool;
  Detach task_recreatePool (recreatePool_chain p) (Return tt).

Definition checkConnection : Async unit :=
  try_catch
    (p ← read this_pool;
     connection ← pool_getConnection p;
     connection_release connection;;
     console_log "Database connection is healthy.")
    (fun error =>
       console_error "Database connection is down. Attempting to reconnect..." error;;
       recreatePool).

(** [constructor(_credentials)]; the two [pool.on] listeners only print
    when the driver opens a socket or queues a caller, which this model
    of the pool does not tell apart, and are left out. *)
Definition constructor (_credentials : MysqlAdapterCredentials) : Async unit :=
  write (set_this_credentials _credentials);;
  p ← createPool _credentials;
  write (set_this_pool p);;
  Detach task_init init
    (write (set_reconnectInterval true)).

Definition destroy : Async unit :=
  write (set_reconnectInterval false);;
  p ← read this_pool;
  Detach task_destroy (pool_end p)
    (console_log "MysqlAdapter destroyed: Reconnection check stopped and connection pool closed.").

End MysqlAdapter.
Import MysqlAdapter.

(* ===================================================================== *)
(** * The event loop: the adapter's tasks, interleaved *)
(* ===================================================================== *)

Module EventLoop.

(** What a task settles with. *)
Inductive Value : Type :=
| Void
| PrevValue (p : Prev).

Definition void (p : Async unit) : Async Value := p;; Return Void.

Definition void_status (st : Status unit) : Status Value :=
  match st with
  | Returned _ => Returned Void
  | Thrown e => Thrown e
  | Waiting rq k => Waiting rq (fun r => void (k r))
  end.

Record Task : Type := {
  name : TaskName;
  status : Status Value
}.

(** What has happened, oldest first. *)
Inductive Entry : Type :=
| Started (i : nat) (n : TaskName)
| Performed (i : nat) (n : TaskName) (rq : Request) (r : Reply)
| Finished (i : nat) (n : TaskName).

Record Loop : Type := {
  world : World;
  tasks : list Task;     (* a task's number is its position *)
  trace : list Entry
}.

Definition is_finished (st : Status Value) : bool :=
  match st with
  | Waiting _ _ => false
  | _ => true
  end.


(** The tasks that [advance] collected, numbered from [i]. *)
Fixpoint enroll (i : nat) (detached : list (TaskName * Status unit))
  : list Task * list Entry :=
  match detached with
  | [] => ([], [])
  | (n, st) :: rest =>
      let '(ts, es) := enroll (S i) rest in
      ({| name := n; status := void_status st |} :: ts,
       Started i n ::
       (if is_finished (void_status st) then [Finished i n] else []) ++ es)
  end.

(** Synchronous code called from outside: the constructor, [destroy]. *)
Definition call_sync (p : Async unit) (l : Loop) : Loop :=
  let '(w, detached, _) := advance p (world l) [] in
  let '(ts, es) := enroll (length (tasks l)) detached in
  {| world := w; tasks := tasks l ++ ts; trace := trace l ++ es |}.

(** A call of an [async] method: a new task, run to its first
    suspension. *)
Definition call_async (n : TaskName) (p : Async Value) (l : Loop) : Loop :=
  let i := length (tasks l) in
  let '(w, detached, st) := advance p (world l) [] in
  let '(ts, es) := enroll (S i) detached in
  {| world := w;
     tasks := tasks l ++ {| name := n; status := st |} :: ts;
     trace := trace l ++ Started i n ::
              (if is_finished st then [Finished i n] else []) ++ es |}.

Inductive Event : Type :=
| Call_save (ctx : Ctx)
| Call_getPrevByNumber (from : string)
| Call_destroy
| Tick                                   (* the interval fires *)
| Settle (i : nat) (reachable : bool).   (* the request of task i settles *)

(** One turn of the loop; [None] when the event cannot happen (the
    interval is not armed, the task is not waiting, or its request has to
    stay pending). *)
Definition turn (l : Loop) (e : Event) : option Loop :=
  match e with
  | Call_save ctx => Some (call_async task_save (void (save ctx)) l)
  | Call_getPrevByNumber from =>
      Some (call_async task_getPrevByNumber
              (prev ← getPrevByNumber from; Return (PrevValue prev)) l)
  | Call_destroy => Some (call_sync destroy l)
  | Tick =>
      if reconnectInterval (world l)
      then Some (call_async task_checkConnection (void checkConnection) l)
      else None
  | Settle i reachable =>
      match tasks l !! i with
      | Some {| name := n; status := Waiting rq k |} =>
          match settle reachable rq (world l) with
          | Some (r, w) =>
              let '(w', detached, st) := advance (k r) w [] in
              let '(ts, es) := enroll (length (tasks l)) detached in
              Some {| world := w';
                      tasks := <[i := {| name := n; status := st |}]> (tasks l) ++ ts;
                      trace := trace l ++ Performed i n rq r ::
                               (if is_finished st then [Finished i n] else []) ++ es |}
          | None => None
          end
      | _ => None
      end
  end.

Fixpoint exec (l : Loop) (events : list Event) : option Loop :=
  match events with
  | [] => Some l
  | e :: events' =>
      match turn l e with
      | Some l' => exec l' events'
      | None => None
      end
  end.

(** [new MysqlAdapter(credentials)] against the server [d]: no pool yet,
    an empty console, then the constructor. *)
Definition boot (credentials : MysqlAdapterCredentials) (d : Database) : Loop :=
  call_sync (constructor credentials)
    {| world := {| pools := []; db := d; this_pool := 0;
                   this_credentials := credentials;
                   reconnectInterval := false; console := [] |};
       tasks := []; trace := [] |}.

(** ** Statements about executions *)

Definition is_save (e : Entry) : bool :=
  match e with
  | Started _ task_save | Performed _ task_save _ _ | Finished _ task_save => true
  | _ => false
  end.

Definition is_init_started (e : Entry) : bool :=
  match e with
  | Started _ task_init => true
  | _ => false
  end.

Definition is_init_finished (e : Entry) : bool :=
  match e with
  | Finished _ task_init => true
  | _ => false
  end.

(** Every entry that satisfies [q] has an entry that satisfies [p]
    before it ([seen]: one was met already). *)
Fixpoint preceded (p q : Entry -> bool) (seen : bool) (t : list Entry) : bool :=
  match t with
  | [] => true
  | e :: t' => (if q e then seen else true) && preceded p q (seen || p e) t'
  end.

(** A [save] has run its INSERT on the server. *)
Definition is_save_statement (e : Entry) : bool :=
  match e with
  | Performed _ task_save (ConnectionExecute _ _) _ => true
  | _ => false
  end.

(** The schema bootstrap has finished before any [save] runs its
    statement on the server, in every execution of an adapter. *)
Definition bootstrap_finishes_before_save
    (credentials : MysqlAdapterCredentials) (d : Database) : Prop :=
  forall events l,
    exec (boot credentials d) events = Some l ->
    preceded is_init_finished is_save_statement false (trace l) = true.

(** The schema bootstrap has been started before anything of a [save]
    happens, in every execution of an adapter. *)
Definition bootstrap_starts_before_save
    (credentials : MysqlAdapterCredentials) (d : Database) : Prop :=
  forall events l,
    exec (boot credentials d) events = Some l ->
    preceded is_init_started is_save false (trace l) = true.





(** The operations that take a connection from the pool. *)
Inductive Operation : Type :=
| op_getPrevByNumber (from : string)
| op_save (ctx : Ctx)
| op_createTable
| op_checkTableExists.

Definition perform (op : Operation) : Async Value :=
  match op with
  | op_getPrevByNumber from => prev ← getPrevByNumber from; Return (PrevValue prev)
  | op_save ctx => void (save ctx)
  | op_createTable => void createTable
  | op_checkTableExists => void checkTableExists
  end.

(** A call that has come to its end leaves every pool with as many
    connections checked out as it found. *)
Definition steady {A : Type} (p : Async A) : Prop :=
  forall reach w w' reach' out,
    run p reach w = (w', reach', out) ->
    out <> Pending ->
    forall q, in_use w' q = in_use w q.

(** The pool in use is open and has [needed] connections to give. *)
Definition available (needed : nat) (w : World) : Prop :=
  exists pl,
    pools w !! this_pool w = Some pl /\
    closed pl = false /\
    (checked_out pl + needed <= connectionLimit (config pl))%nat.

(** With [needed] connections to give, a call comes to its end and
    leaves the pools exactly as it found them. *)
Definition completes {A : Type} (needed : nat) (p : Async A) : Prop :=
  forall reach w,
    available needed w ->
    exists w' reach' out,
      run p reach w = (w', reach', out) /\
      out <> Pending /\
      this_pool w' = this_pool w /\
      pools w' = pools w.

(** Every id in the table is below the next auto-increment value. *)
Definition ids_below_auto_increment (t : Table) : Prop :=
  forall r, r ∈ rows t -> id r < auto_increment t.


(** The connection of the frame, taken from the pool in use, and given
    back to pool [p]. *)
Definition taken (w : World) : World := set_pools (alter check_out (this_pool w)) w.

Definition given_back (p : nat) (w : World) : World :=
  release_connection {| of_pool := p |} w.

(** The row that [save ctx] inserts into [t], [text] being the JSON text
    of the options, and the server after that. *)
Definition inserted (ctx : Ctx) (text : string) (d : Database) (t : Table) : Row string :=
  {| id := auto_increment t; ref := ctx_ref ctx; keyword := ctx_keyword ctx;
     answer := ctx_answer ctx; refSerialize := ctx_refSerialize ctx;
     phone := ctx_from ctx; options := text; created_at := now d |}.

Definition after_insert (row : Row string) (t : Table) (d : Database) : Database :=
  set_history (Some {| rows := rows t ++ [row]; auto_increment := auto_increment t + 1 |}) d.

(** The probe of the pool in use, settled now, is refused with [e]. *)
Definition probe_rejected (reachable : bool) (e : JsError) (l : Loop) : Prop :=
  settle reachable (PoolGetConnection (this_pool (world l))) (world l)
  = Some (Rejected e, world l).

(** ** Examples *)

Definition example_credentials : MysqlAdapterCredentials :=
  {| host := "localhost"; user := "bot"; database := "bot";
     password := "secret"; port := 3306 |}.

(** A server without the [history] table, and one with it, empty. *)
Definition blank_server : Database :=
  {| history := None; collation := String.eqb; now := 0 |}.

Definition ready_server : Database :=
  {| history := Some {| rows := []; auto_increment := 1 |};
     collation := String.eqb; now := 0 |}.

(** A server with three rows, two of them of one subscriber. *)
Definition stocked_server : Database :=
  {| history :=
       Some {| rows :=
                 [{| id := 1; ref := "ans_1"; keyword := "key_1"; answer := "hi";
                     refSerialize := "ser_1"; phone := "5491100000000";
                     options := "{}"; created_at := 10 |};
                  {| id := 2; ref := "ans_2"; keyword := "key_2"; answer := "hello";
                     refSerialize := "ser_2"; phone := "34600000000";
                     options := "null"; created_at := 20 |};
                  {| id := 3; ref := "ans_3"; keyword := "key_3"; answer := "doc";
                     refSerialize := "ser_3"; phone := "5491100000000";
                     options := "[1, 2]"; created_at := 30 |}];
               auto_increment := 4 |};
     collation := String.eqb; now := 40 |}.

Definition example_ctx : Ctx :=
  {| ctx_ref := "ans_1"; ctx_keyword := "key_1"; ctx_answer := "36";
     ctx_refSerialize := "ser_1"; ctx_from := "5491100000000";
     ctx_options := JsObject [("capture", JsBool true); ("delay", JsNumber 800)] |}.

End EventLoop.
Import EventLoop.

(* ===================================================================== *)
(** * The application: flows and the [/v1/blacklist] handler *)
(* ===================================================================== *)

Module App.

(** ** The flows *)

(** The flows that the claims are about; a flow is referred to by name,
    as [gotoFlow(registerFlow)] does. *)
Inductive Flow : Type :=
| welcomeFlow
| discordFlow
| registerFlow.

(** The inbound message handed to a callback. *)
Record BotContext : Type := {
  body : string;
  from : string
}.

(** What a callback asks of the engine when it returns. *)
Inductive Control : Type :=
| Advance                        (* plain return *)
| gotoFlow (target : Flow)
| fallBack (message : string).

(** A callback, through the tools it is handed: [state] (read with
    [state.get], merged into by [state.update]), the messages it sends
    with [flowDynamic], and how it returns. *)
Record Turn : Type := {
  state : gmap string string;
  sent : list string;
  control : Control
}.

Definition Callback : Type := BotContext -> gmap string string -> Turn.

Inductive Trigger : Type :=
| Keyword (word : string)
| setEvent (event : string).     (* utils.setEvent *)

Record Step : Type := {
  answer : option string;        (* None for addAction *)
  capture : bool;
  delay : option nat;
  callback : option Callback;
  branches : list Flow           (* the nested flows *)
}.

Record FlowDef : Type := {
  triggers : list Trigger;
  steps : list Step
}.

Definition addKeyword (ts : list Trigger) : FlowDef :=
  {| triggers := ts; steps := [] |}.

Definition addAnswer (text : string) (capture : bool) (delay : option nat)
    (cb : option Callback) (nested : list Flow) (f : FlowDef) : FlowDef :=
  {| triggers := triggers f;
     steps := steps f ++ [{| answer := Some text; capture := capture; delay := delay;
                             callback := cb; branches := nested |}] |}.

Definition addAction (cb : Callback) (f : FlowDef) : FlowDef :=
  {| triggers := triggers f;
     steps := steps f ++ [{| answer := None; capture := false; delay := None;
                             callback := Some cb; branches := [] |}] |}.

Notation "f '.>' g" := (g f) (at level 45, left associativity, only parsing).

(** [lines.join('\n')] *)
Fixpoint join_lines (lines : list string) : string :=
  match lines with
  | [] => ""
  | [l] => l
  | l :: ls => l +:+ String (ascii_of_N 10) (join_lines ls)
  end.

Definition flow (f : Flow) : FlowDef :=
  match f with
  | discordFlow =>
      addKeyword [Keyword "doc"]
      .> addAnswer
           (join_lines ["You can see the documentation here";
                        "📄 https://builderbot.app/docs " +:+ String (ascii_of_N 10) "";
                        "Do you want to continue? *yes*"])
           true None
           (Some (fun ctx st =>
              if includes (toLocaleLowerCase (body ctx)) "yes"
              then {| state := st; sent := []; control := gotoFlow registerFlow |}
              else {| state := st; sent := ["Thanks!"]; control := Advance |}))
           []
  | welcomeFlow =>
      addKeyword [Keyword "hi"; Keyword "hello"; Keyword "hola"]
      .> addAnswer "🙌 Hello welcome to this *Chatbot*" false None None []
      .> addAnswer
           (join_lines ["I share with you the following links of interest about the project";
                        "👉 *doc* to view the documentation"])
           true (Some 800%nat)
           (Some (fun ctx st =>
              if negb (includes (toLocaleLowerCase (body ctx)) "doc")
              then {| state := st; sent := []; control := fallBack "You should type *doc*" |}
              else {| state := st; sent := []; control := Advance |}))
           [discordFlow]
  | registerFlow =>
      addKeyword [setEvent "REGISTER_FLOW"]
      .> addAnswer "What is your name?" true None
           (Some (fun ctx st =>
              {| state := <["name" := body ctx]> st; sent := []; control := Advance |}))
           []
      .> addAnswer "What is your age?" true None
           (Some (fun ctx st =>
              {| state := <["age" := body ctx]> st; sent := []; control := Advance |}))
           []
      .> addAction (fun _ st =>
           {| state := st;
              sent := [template_text (st !! "name") +:+
                       ", thanks for your information!: Your age: " +:+
                       template_text (st !! "age")];
              control := Advance |})
  end.

(** ** The engine *)

(** Modelled from the spec: the flow graph engine ([advance] of the
    specification; the package that implements it is not part of the
    sources). Steps run in order from the resume point. A step first
    emits its answer; a capture step then suspends with the resume point
    on itself, any other step runs its callback at once and goes on. On
    the next inbound message the callback of the capture step is run on
    it: a plain return goes on with the next step, [gotoFlow] restarts at
    step 0 of the target within the same turn, [fallBack] emits the
    corrective message and the step's answer again and leaves the resume
    point where it is. Past the last step the conversation is complete
    and idle. *)
Inductive Outcome : Type :=
| AwaitingCapture
| Fallback (message : string)
| Complete.

Record Conversation : Type := {
  resume : option (Flow * nat);
  memory : gmap string string
}.

Record Result : Type := {
  effects : list string;          (* outbound messages, oldest first *)
  conversation : Conversation;
  outcome : Outcome
}.

Definition emit (s : Step) : list string :=
  match answer s with
  | Some text => [text]
  | None => []
  end.

Definition run_callback (s : Step) (ctx : BotContext) (st : gmap string string) : Turn :=
  match callback s with
  | Some cb => cb ctx st
  | None => {| state := st; sent := []; control := Advance |}
  end.

(** Run the steps of [f] from [i]; [fuel] bounds the number of steps of
    one turn. *)
Fixpoint execute (fuel : nat) (f : Flow) (i : nat) (ctx : BotContext)
    (st : gmap string string) (out : list string) : option Result :=
  match fuel with
  | O => None
  | S fuel' =>
      match steps (flow f) !! i with
      | None =>
          Some {| effects := out;
                  conversation := {| resume := None; memory := st |};
                  outcome := Complete |}
      | Some s =>
          if capture s then
            Some {| effects := out ++ emit s;
                    conversation := {| resume := Some (f, i); memory := st |};
                    outcome := AwaitingCapture |}
          else
            let t := run_callback s ctx st in
            let out' := out ++ emit s ++ sent t in
            match control t with
            | Advance => execute fuel' f (S i) ctx (state t) out'
            | gotoFlow target => execute fuel' target O ctx (state t) out'
            | fallBack message =>
                Some {| effects := out' ++ [message];
                        conversation := {| resume := Some (f, i); memory := state t |};
                        outcome := Fallback message |}
            end
      end
  end.

(** [advance]: the next inbound message of a conversation that is
    suspended on a capture step. *)
Definition advance (fuel : nat) (c : Conversation) (ctx : BotContext) : option Result :=
  match resume c with
  | None => None
  | Some (f, i) =>
      match steps (flow f) !! i with
      | None => None
      | Some s =>
          let t := run_callback s ctx (memory c) in
          match control t with
          | Advance => execute fuel f (S i) ctx (state t) (sent t)
          | gotoFlow target => execute fuel target O ctx (state t) (sent t)
          | fallBack message =>
              Some {| effects := sent t ++ message :: emit s;
                      conversation := {| resume := Some (f, i); memory := state t |};
                      outcome := Fallback message |}
          end
      end
  end.

(** ** [POST /v1/blacklist] *)

(** [bot.blacklist], an object of the bot package. *)
Class BlackList (B : Type) : Type := {
  blacklist_add : JsValue -> B -> B;
  blacklist_remove : JsValue -> B -> B;
  blacklist_checkIf : JsValue -> B -> bool
}.

(** The response object, as far as the handler writes to it. *)
Record Response : Type := {
  statusCode : nat;
  headers : list (string * string);
  payload : string
}.

(** [intent === 'add'] *)
Definition strict_equals (v : JsValue) (s : string) : bool :=
  match v with
  | JsString s' => String.eqb s' s
  | _ => false
  end.

(** The handler registered for [/v1/blacklist], on the [number] and
    [intent] of the request body. *)
Definition blacklist_handler {B : Type} `{BlackList B}
    (number intent : JsValue) (blacklist : B) : B * Response :=
  let blacklist := if strict_equals intent "remove"
                   then blacklist_remove number blacklist else blacklist in
  let blacklist := if strict_equals intent "add"
                   then blacklist_add number blacklist else blacklist in
  (blacklist,
   {| statusCode := 200;
      headers := [("Content-Type", "application/json")];
      payload :=
        default "" (JSON_stringify
          (JsObject [("status", JsString "ok"); ("number", number); ("intent", intent)])) |}).

(** What the handler answers, whatever the intent: status 200, the JSON
    content type and the JSON text of [{status: "ok", number, intent}]. *)
Definition ok_response (number intent : JsValue) : Response :=
  {| statusCode := 200;
     headers := [("Content-Type", "application/json")];
     payload :=
       default "" (JSON_stringify
         (JsObject [("status", JsString "ok"); ("number", number); ("intent", intent)])) |}.

(** Structural equality of values. *)
Fixpoint js_eqb (a b : JsValue) : bool :=
  match a, b with
  | JsUndefined, JsUndefined => true
  | JsNull, JsNull => true
  | JsBool x, JsBool y => Bool.eqb x y
  | JsNumber x, JsNumber y => Z.eqb x y
  | JsString x, JsString y => String.eqb x y
  | JsArray xs, JsArray ys =>
      (fix all (l1 l2 : list JsValue) : bool :=
         match l1, l2 with
         | [], [] => true
         | x :: l1', y :: l2' => js_eqb x y && all l1' l2'
         | _, _ => false
         end) xs ys
  | JsObject xs, JsObject ys =>
      (fix all (l1 l2 : list (string * JsValue)) : bool :=
         match l1, l2 with
         | [], [] => true
         | (k, x) :: l1', (k', y) :: l2' => String.eqb k k' && js_eqb x y && all l1' l2'
         | _, _ => false
         end) xs ys
  | _, _ => false
  end.

(** Modelled from the spec: the blacklist, a set of subscriber
    identifiers with add, remove and contains and nothing else (its
    class is not part of the sources). *)
#[global] Instance blacklist_set : BlackList (list JsValue) := {|
  blacklist_add v l := if existsb (js_eqb v) l then l else l ++ [v];
  blacklist_remove v l := filter (fun x => js_eqb v x = false) l;
  blacklist_checkIf v l := existsb (js_eqb v) l
|}.

End App.

(* ===================================================================== *)
(** * Further statements about the adapter and the flows *)
(* ===================================================================== *)

Module Behaviour.

(** What the [catch] of each operation prints before it rethrows. *)
Definition error_label (op : Operation) : string :=
  match op with
  | op_getPrevByNumber _ => "Error in getPrevByNumber:"
  | op_save _ => "Error in save:"
  | op_createTable => "Error creating table:"
  | op_checkTableExists => "Error checking table existence:"
  end.

(** What [getConnection] prints before it rethrows. *)
Definition acquire_error (e : JsError) : LogLine :=
  console_error_line "Error acquiring connection:" e.

(** The server once [CREATE TABLE IF NOT EXISTS history] has run: a
    table that was there is kept with its rows, a missing one is there
    and empty. *)
Definition ensured (d : Database) : Database :=
  set_history (Some (default {| rows := []; auto_increment := 1 |} (history d))) d.

(** The last line on the console. *)
Definition last_line (w : World) : option LogLine := last (console w).

(** The pool in use is open, makes its callers wait
    ([waitForConnections]) and has exactly one connection left to give. *)
Definition one_connection_left (w : World) : Prop :=
  exists pl,
    pools w !! this_pool w = Some pl /\
    closed pl = false /\
    waitForConnections (config pl) = true /\
    S (checked_out pl) = connectionLimit (config pl).

(** The callback registered with step [i] of a flow. *)
Definition callback_at (f : App.Flow) (i : nat) : option App.Callback :=
  match App.steps (App.flow f) !! i with
  | Some s => App.callback s
  | None => None
  end.

(** [body] contains [word] written in some letter case. *)
Definition mentions (body word : string) : Prop :=
  exists pre w post, body = pre +:+ w +:+ post /\ toLocaleLowerCase w = word.

(** What [JSON.stringify] keeps of a property: nothing when its value is
    [undefined]. *)
Definition own (k : string) (v : JsValue) : list (string * JsValue) :=
  match v with
  | JsUndefined => []
  | _ => [(k, v)]
  end.

(** [undefined], or a value that JSON represents. *)
Definition optional (v : JsValue) : Prop :=
  v = JsUndefined \/ json_serializable v = true.

(** The message of the last step of [registerFlow]. *)
Definition thanks (name age : string) : string :=
  name +:+ ", thanks for your information!: Your age: " +:+ age.

(** ** What [JSON.stringify] and [JSON.parse] make of a value

    [normalise v] is [v] as it comes back from its JSON text: an
    [undefined] element of an array has become [null], a property whose
    value is [undefined] is gone. *)
Fixpoint normalise (v : JsValue) : JsValue :=
  match v with
  | JsArray items =>
      JsArray (map (fun x => match x with
                             | JsUndefined => JsNull
                             | _ => normalise x
                             end) items)
  | JsObject props =>
      JsObject (omap (fun kx : string * JsValue =>
                        match kx.2 with
                        | JsUndefined => None
                        | _ => Some (kx.1, normalise kx.2)
                        end) props)
  | _ => v
  end.

(** An element and a property of the value that comes back. *)
Definition element_of (x : JsValue) : JsValue :=
  match x with
  | JsUndefined => JsNull
  | _ => normalise x
  end.

Definition property_of (kx : string * JsValue) : option (string * JsValue) :=
  match kx.2 with
  | JsUndefined => None
  | _ => Some (kx.1, normalise kx.2)
  end.

(** Values whose numbers are safe integers and whose objects have
    distinct keys; [undefined] may occur in them. *)
Fixpoint storable (v : JsValue) : bool :=
  match v with
  | JsNumber n => safe_integer n
  | JsArray items => forallb storable items
  | JsObject props =>
      distinct (map fst props) && forallb (fun kx => storable kx.2) props
  | _ => true
  end.

(** ** What no call does

    [keeps R p]: every synchronous statement of [p], of what follows the
    requests it awaits and of the tasks it starts takes a world to one
    that [R] relates to it. *)
Inductive keeps (R : World -> World -> Prop) : forall {A : Type}, Async A -> Prop :=
| keeps_Return {A : Type} (a : A) : keeps R (Return a)
| keeps_Throw {A : Type} (e : JsError) : keeps R (@Throw A e)
| keeps_Await {A : Type} (rq : Request) (k : Reply -> Async A) :
    (forall r, keeps R (k r)) -> keeps R (Await rq k)
| keeps_Sync {A B : Type} (f : World -> B * World) (k : B -> Async A) :
    (forall w, R w (f w).2) -> (forall b, keeps R (k b)) -> keeps R (Sync f k)
| keeps_Detach {A : Type} (n : TaskName) (q : Async unit) (k : Async A) :
    keeps R q -> keeps R k -> keeps R (Detach n q k).

Definition status_keeps (R : World -> World -> Prop) {A : Type} (st : Status A) : Prop :=
  match st with
  | Waiting _ k => forall r, keeps R (k r)
  | _ => True
  end.

Definition tasks_keep (R : World -> World -> Prop) (l : Loop) : Prop :=
  Forall (fun t => status_keeps R (status t)) (tasks l).

(** The table has only grown: it is still there, and the rows it had
    are its first rows, unchanged. *)
Definition grows (d d' : Database) : Prop :=
  forall t, history d = Some t ->
    exists t', history d' = Some t' /\ rows t `prefix_of` rows t'.

Definition append_only (w w' : World) : Prop := grows (db w) (db w').

(** An interval that has been cleared is not armed again. *)
Definition stays_disarmed (w w' : World) : Prop :=
  reconnectInterval w = false -> reconnectInterval w' = false.

End Behaviour.

(** Induction on a value with the hypothesis for every element of an
    array and every property value of an object. *)
Section JsValue_induction.
Variable P : JsValue -> Prop.
Hypothesis P_undefined : P JsUndefined.
Hypothesis P_null : P JsNull.
Hypothesis P_bool : forall b, P (JsBool b).
Hypothesis P_number : forall n, P (JsNumber n).
Hypothesis P_string : forall s, P (JsString s).
Hypothesis P_array : forall items, Forall P items -> P (JsArray items).
Hypothesis P_object :
  forall props, Forall (fun kv => P kv.2) props -> P (JsObject props).

Fixpoint JsValue_nested_ind (v : JsValue) : P v :=
  match v with
  | JsUndefined => P_undefined
  | JsNull => P_null
  | JsBool b => P_bool b
  | JsNumber n => P_number n
  | JsString s => P_string s
  | JsArray items =>
      P_array items
        ((fix all (l : list JsValue) : Forall P l :=
            match l with
            | [] => List.Forall_nil P
            | x :: l' => List.Forall_cons P x l' (JsValue_nested_ind x) (all l')
            end) items)
  | JsObject props =>
      P_object props
        ((fix all (l : list (string * JsValue)) : Forall (fun kv => P kv.2) l :=
            match l with
            | [] => List.Forall_nil _
            | kv :: l' =>
                List.Forall_cons (fun kv => P kv.2) kv l' (JsValue_nested_ind kv.2) (all l')
            end) props)
  end.
End JsValue_induction.

(* ===================================================================== *)
(** * Properties of the application *)
(* ===================================================================== *)


Module AppFacts.
Import App.








(** C10. For an [intent] that is neither "add" nor "remove" the blacklist
    is left as it was (whatever implements it: neither of its methods is
    called), and the answer is still status 200 with the body
    [{status: "ok", number, intent}]: the intent is echoed and no error
    is reported. *)
Theorem blacklist_other_intent_unchanged {B : Type} `{BlackList B}
    (number intent : JsValue) (blacklist : B) :
  intent <> JsString "add" -> intent <> JsString "remove" ->
  blacklist_handler number intent blacklist = (blacklist, ok_response number intent) /\
  statusCode (ok_response number intent) = 200%nat /\
  JSON_stringify (JsObject [("status", JsString "ok"); ("number", number); ("intent", intent)])
    = Some (payload (ok_response number intent)).
Proof.
  intros Hadd Hremove. unfold blacklist_handler.
  assert (strict_equals intent "add" = false) as ->.
  { destruct intent; try done. simpl. apply String.eqb_neq. congruence. }
  assert (strict_equals intent "remove" = false) as ->.
  { destruct intent; try done. simpl. apply String.eqb_neq. congruence. }
  done.
Qed.

Lemma blacklist_other_intent_unchanged_witness :
  blacklist_handler (JsString "5491100000000") (JsString "block") [JsString "34600000000"]
  = ([JsString "34600000000"],
     ok_response (JsString "5491100000000") (JsString "block")).
Proof.
  exact (proj1 (blacklist_other_intent_unchanged (JsString "5491100000000") (JsString "block")
                  [JsString "34600000000"] ltac:(discriminate) ltac:(discriminate))).
Defined.

(** From the capture step of [discordFlow], a reply that contains "yes"
    in any case enters [registerFlow] within the same turn: the name
    prompt is sent and the conversation waits at its first step. *)
Lemma discord_yes_enters_register (fuel : nat) (st : gmap string string) (ctx : BotContext) :
  includes (toLocaleLowerCase (body ctx)) "yes" = true ->
  App.advance (S fuel) {| resume := Some (discordFlow, 0%nat); memory := st |} ctx
  = Some {| effects := ["What is your name?"];
            conversation := {| resume := Some (registerFlow, 0%nat); memory := st |};
            outcome := AwaitingCapture |}.
Proof.
  intros Hyes. unfold App.advance. simpl. unfold run_callback. simpl.
  by rewrite Hyes.
Qed.

(** The two capture steps of [registerFlow] and its final action, for
    any name and age. *)
Lemma register_name_step (fuel : nat) (st : gmap string string) (ctx : BotContext) :
  App.advance (S fuel) {| resume := Some (registerFlow, 0%nat); memory := st |} ctx
  = Some {| effects := ["What is your age?"];
            conversation := {| resume := Some (registerFlow, 1%nat);
                               memory := <["name" := body ctx]> st |};
            outcome := AwaitingCapture |}.
Proof. reflexivity. Qed.

Lemma register_age_step (fuel : nat) (st : gmap string string) (ctx : BotContext) :
  App.advance (S (S fuel)) {| resume := Some (registerFlow, 1%nat); memory := st |} ctx
  = Some {| effects := [template_text (<["age" := body ctx]> st !! "name") +:+
                        ", thanks for your information!: Your age: " +:+ body ctx];
            conversation := {| resume := None; memory := <["age" := body ctx]> st |};
            outcome := Complete |}.
Proof.
  unfold App.advance. simpl. unfold run_callback. simpl.
  by rewrite lookup_insert_eq.
Qed.

(** C7. At the name-capture step of the registration flow the reply
    "Ada" sets [name] to "Ada" in the conversation state and sends
    "What is your age?", on which the conversation waits (a capture
    step); the reply "36" then sets [age] to "36", and the final action
    sends exactly "Ada, thanks for your information!: Your age: 36" and
    completes the flow. *)
Theorem register_flow_ada_36 (fuel : nat) (st : gmap string string) (who : string) :
  let at_name := {| resume := Some (registerFlow, 0%nat); memory := st |} in
  let at_age := {| resume := Some (registerFlow, 1%nat);
                   memory := <["name" := "Ada"]> st |} in
  App.advance (2 + fuel) at_name {| body := "Ada"; from := who |}
  = Some {| effects := ["What is your age?"];
            conversation := at_age;
            outcome := AwaitingCapture |}
  /\ App.advance (2 + fuel) at_age {| body := "36"; from := who |}
  = Some {| effects := ["Ada, thanks for your information!: Your age: 36"];
            conversation := {| resume := None;
                               memory := <["age" := "36"]> (<["name" := "Ada"]> st) |};
            outcome := Complete |}.
Proof.
  split.
  - apply register_name_step.
  - change (2 + fuel)%nat with (S (S fuel)). rewrite register_age_step. simpl.
    rewrite lookup_insert_ne by done. by rewrite lookup_insert_eq.
Qed.

End AppFacts.

(* ===================================================================== *)
(** * Properties of the adapter's executions *)
(* ===================================================================== *)

Module LoopFacts.

#[local] Arguments settle : simpl never.
#[local] Arguments exec : simpl never.
#[local] Arguments turn : simpl never.
#[local] Arguments close_pool : simpl never.
#[local] Arguments release_connection : simpl never.

(** ** Pools *)

Lemma settle_getConnection (w : World) (p : nat) (pl : Pool) :
  pools w !! p = Some pl ->
  closed pl = false ->
  (checked_out pl < connectionLimit (config pl))%nat ->
  settle true (PoolGetConnection p) w
  = Some (Resolved (Connection {| of_pool := p |}), set_pools (alter check_out p) w).
Proof.
  intros Hp Hopen Hroom. unfold settle. rewrite Hp, Hopen. simpl.
  by apply Nat.ltb_lt in Hroom as ->.
Qed.

Lemma settle_after_close (w : World) (p : nat) (ps : list Pool) (reachable : bool) :
  pools w = alter set_closed p ps ->
  settle reachable (PoolGetConnection p) w = Some (Rejected PoolIsClosed, w).
Proof.
  intros H. unfold settle. rewrite H, list_lookup_alter_eq.
  by destruct (ps !! p).
Qed.


Lemma lookup_last {A : Type} (l : list A) (x : A) (i : nat) :
  i = length l -> (l ++ [x]) !! i = Some x.
Proof. intros ->. by apply list_lookup_middle. Qed.

Lemma insert_task (ts : list Task) (t t' : Task) (more : list Task) (i : nat) :
  i = length ts -> <[i := t']> (ts ++ t :: more) = ts ++ t' :: more.
Proof.
  intros ->. induction ts as [|y ts IH]; simpl; [done|]. by rewrite IH.
Qed.

Lemma lookup_task (ts : list Task) (t : Task) (more : list Task) (i : nat) :
  i = length ts -> (ts ++ t :: more) !! i = Some t.
Proof. intros ->. by apply list_lookup_middle. Qed.

Ltac flatten := rewrite ?app_nil_r; rewrite <- ?(assoc_L (++)); simpl.

(** ** Turns *)

Lemma exec_cons (l : Loop) (e : Event) (events : list Event) :
  exec l (e :: events)
  = match turn l e with
    | Some l' => exec l' events
    | None => None
    end.
Proof. reflexivity. Qed.

Lemma turn_settle (l : Loop) (i : nat) (n : TaskName) (rq : Request)
    (k : Reply -> Async Value) (reachable : bool) (r : Reply) (w : World) :
  tasks l !! i = Some {| name := n; status := Waiting rq k |} ->
  settle reachable rq (world l) = Some (r, w) ->
  turn l (Settle i reachable)
  = Some (let '(w', detached, st) := Async.advance (k r) w [] in
          let '(ts, es) := enroll (length (tasks l)) detached in
          {| world := w';
             tasks := <[i := {| name := n; status := st |}]> (tasks l) ++ ts;
             trace := trace l ++ Performed i n rq r ::
                      (if is_finished st then [Finished i n] else []) ++ es |}).
Proof.
  intros Ht Hs. unfold turn. rewrite Ht, Hs.
  destruct (Async.advance _ _ _) as [[w' det] st]. by destruct (enroll _ _).
Qed.

Ltac find_task :=
  cbn [tasks]; apply lookup_task; rewrite ?length_app; simpl; lia.

Ltac settle_step find settled :=
  rewrite exec_cons; erewrite turn_settle; [|find|settled];
  simpl; rewrite ?app_nil_r;
  rewrite ?insert_task by (rewrite ?length_app; simpl; lia).

Lemma turn_trace (l : Loop) (e : Event) (l' : Loop) :
  turn l e = Some l' -> exists es, trace l' = trace l ++ es.
Proof.
  unfold turn. destruct e.
  - intros [= <-]. unfold call_async.
    destruct (Async.advance _ _ _) as [[w det] st]. destruct (enroll _ _) as [ts es]. simpl. eauto.
  - intros [= <-]. unfold call_async.
    destruct (Async.advance _ _ _) as [[w det] st]. destruct (enroll _ _) as [ts es]. simpl. eauto.
  - intros [= <-]. unfold call_sync.
    destruct (Async.advance _ _ _) as [[w det] st]. destruct (enroll _ _) as [ts es]. simpl. eauto.
  - destruct (reconnectInterval _); [|done]. intros [= <-]. unfold call_async.
    destruct (Async.advance _ _ _) as [[w det] st]. destruct (enroll _ _) as [ts es]. simpl. eauto.
  - destruct (tasks l !! i) as [[n [| |rq k]]|]; try done.
    destruct (settle _ _ _) as [[r w]|]; [|done].
    destruct (Async.advance _ _ _) as [[w' det] st]. destruct (enroll _ _) as [ts es].
    intros [= <-]. simpl. eauto.
Qed.

Lemma exec_trace (events : list Event) (l l' : Loop) :
  exec l events = Some l' -> exists es, trace l' = trace l ++ es.
Proof.
  revert l. induction events as [|e events IH]; intros l.
  - intros [= <-]. exists []. by rewrite app_nil_r.
  - rewrite exec_cons. destruct (turn l e) as [l1|] eqn:E; [|done].
    intros H. apply IH in H as [es2 ->]. apply turn_trace in E as [es1 ->].
    exists (es1 ++ es2). by rewrite app_assoc.
Qed.


Lemma preceded_seen (p q : Entry -> bool) (t : list Entry) : preceded p q true t = true.
Proof. induction t as [|e t IH]; simpl; [done|]. rewrite IH. by destruct (q e). Qed.

(** ** The bootstrap and [save] *)

(** C1, as stated, fails: against a server without the table, a [save]
    issued right after the constructor takes a connection and runs its
    INSERT (which the server refuses) while the bootstrap still waits
    for its own connection. *)
Lemma save_runs_before_bootstrap_finishes :
  ~ bootstrap_finishes_before_save example_credentials blank_server.
Proof.
  intros H.
  specialize (H [Call_save example_ctx; Settle 1 true; Settle 1 true]).
  destruct (exec _ _) as [l|] eqn:E; [|by vm_compute in E].
  specialize (H l eq_refl).
  vm_compute in E. injection E as <-.
  vm_compute in H. discriminate.
Qed.

(** C1, amended. The constructor starts the schema bootstrap before it
    returns: in every execution the start of [init] is the first thing
    that happens, so it precedes everything of every [save]. The
    constructor does not wait for it, and a [save] is accepted in every
    state, whether the bootstrap has finished or not. *)
Theorem bootstrap_is_started_before_save
    (credentials : MysqlAdapterCredentials) (d : Database) :
  bootstrap_starts_before_save credentials d /\
  (exists k, tasks (boot credentials d)
             = [{| name := task_init; status := Waiting (PoolGetConnection 0) k |}]) /\
  (forall events l ctx,
     exec (boot credentials d) events = Some l -> is_Some (turn l (Call_save ctx))).
Proof.
  split; [|split].
  - intros events l H. apply exec_trace in H as [es ->].
    simpl. apply preceded_seen.
  - eexists. reflexivity.
  - intros events l ctx _. unfold turn. eauto.
Qed.

(** ** The health check *)

(** C9. When the probe of [checkConnection] fails and ending the old
    pool then rejects, the rejection is only logged: the pool handle is
    the one it was, no pool has been constructed (the old one is merely
    marked closed), no [init] has been started and the server has not
    been touched. Recovery waits for the next tick of the interval, whose
    probe fails on the closed pool and starts the next attempt. *)
Theorem pool_end_rejection_keeps_the_pool (l : Loop) (reachable : bool) (e : JsError) :
  reconnectInterval (world l) = true ->
  probe_rejected reachable e l ->
  let n := length (tasks l) in
  let p := this_pool (world l) in
  exists l',
    exec l [Tick; Settle n reachable; Settle (S n) false] = Some l' /\
    this_pool (world l') = p /\
    pools (world l') = alter set_closed p (pools (world l)) /\
    length (pools (world l')) = length (pools (world l)) /\
    db (world l') = db (world l) /\
    tasks l' = tasks l ++ [{| name := task_checkConnection; status := Returned Void |};
                           {| name := task_recreatePool; status := Returned Void |}] /\
    trace l' = trace l ++
      [Started n task_checkConnection;
       Performed n task_checkConnection (PoolGetConnection p) (Rejected e);
       Finished n task_checkConnection;
       Started (S n) task_recreatePool;
       Performed (S n) task_recreatePool (PoolEnd p) (Rejected ConnectionLost);
       Finished (S n) task_recreatePool] /\
    console (world l') = console (world l) ++
      [console_error_line "Database connection is down. Attempting to reconnect..." e;
       console_log_line "Recreating connection pool...";
       console_error_line "Error ending pool during reconnection:" ConnectionLost] /\
    (forall reachable', exists l'' k,
       exec l' [Tick; Settle (S (S n)) reachable'] = Some l'' /\
       tasks l'' !! S (S (S n))
       = Some {| name := task_recreatePool; status := Waiting (PoolEnd p) k |}).
Proof.
  destruct l as [[ps d p c armed con] ts tr]. unfold probe_rejected. simpl.
  intros -> Hprobe.
  eexists. split.
  { rewrite exec_cons. unfold turn at 1. cbn [world reconnectInterval].
    unfold call_async. simpl.
    rewrite exec_cons. erewrite turn_settle; [|by apply lookup_task|exact Hprobe]. simpl.
    rewrite insert_task by done.
    rewrite exec_cons. erewrite turn_settle;
      [|apply lookup_task; rewrite length_app; simpl; lia|reflexivity].
    simpl. rewrite insert_task by (rewrite length_app; simpl; lia).
    reflexivity. }
  simpl. unfold close_pool. simpl.
  rewrite ?length_insert, ?length_app. simpl. rewrite ?Nat.add_1_r.
  repeat split.
  - by rewrite length_alter.
  - by flatten.
  - by flatten.
  - by flatten.
  - intros reachable'.
    eexists _, _. split.
    + rewrite exec_cons. unfold turn at 1. cbn [world reconnectInterval].
      unfold call_async. simpl.
      rewrite exec_cons. erewrite turn_settle;
        [|apply lookup_task; rewrite !length_app; simpl; lia
         |by apply settle_after_close with (ps := ps)].
      simpl. reflexivity.
    + simpl. rewrite insert_task by (rewrite !length_app; simpl; lia).
      apply lookup_task. rewrite !length_app. simpl. lia.
Qed.

Lemma pool_end_rejection_keeps_the_pool_witness :
  exists l',
    exec (boot example_credentials blank_server) [Tick; Settle 1 false; Settle 2 false]
    = Some l' /\
    this_pool (world l') = 0%nat /\
    length (pools (world l')) = 1%nat.
Proof.
  destruct (pool_end_rejection_keeps_the_pool
              (boot example_credentials blank_server) false ConnectionLost
              eq_refl eq_refl) as (l' & Hexec & Hpool & _ & Hlen & _).
  exists l'. split; [exact Hexec|]. split; [exact Hpool|exact Hlen].
Defined.




End LoopFacts.

(* ===================================================================== *)
(** * [JSON.parse] after [JSON.stringify] *)
(* ===================================================================== *)

Module JsonFacts.

#[local] Open Scope nat_scope.

Lemma skip_ws_ends_value (rest : list ascii) : ends_value rest -> skip_ws rest = rest.
Proof. destruct rest as [|c rest]; [done|]. by intros [-> | [-> | ->]]. Qed.

(** ** Numbers *)

Lemma chars_uint_uint_chars (d : uint) (rest : list ascii) :
  ends_value rest -> chars_uint (uint_chars d ++ rest) = (d, rest).
Proof.
  intros Hrest. induction d; simpl; rewrite ?IHd; try reflexivity.
  destruct rest as [|c rest]; [done|]. by destruct Hrest as [-> | [-> | ->]].
Qed.

Lemma to_uint_normal (m : N) : unorm (N.to_uint m) = N.to_uint m.
Proof.
  rewrite <- (DecimalN.Unsigned.to_of (N.to_uint m)).
  by rewrite DecimalN.Unsigned.of_to.
Qed.

Lemma continues_number_ends_value (rest : list ascii) :
  ends_value rest -> continues_number rest = false.
Proof. destruct rest as [|c rest]; [done|]. by intros [-> | [-> | ->]]. Qed.

Lemma uint_chars_head (d : uint) (rest : list ascii) :
  d <> Nil ->
  exists c t, uint_chars d ++ rest = c :: t /\ is_digit c = true.
Proof. destruct d; [done|..]; intros _; simpl; eauto. Qed.

Lemma parse_number_unsigned (m : N) (rest : list ascii) :
  ends_value rest ->
  parse_number (uint_chars (N.to_uint m) ++ rest) = Some (Z.of_N m, rest).
Proof.
  intros Hrest. unfold parse_number.
  assert (N.to_uint m <> Nil) as Hnil.
  { intros H. pose proof (to_uint_normal m) as Hn. rewrite H in Hn. discriminate. }
  destruct (uint_chars_head _ rest Hnil) as (c & t & Hc & Hdigit).
  assert ((c =? "-")%char = false) as Hminus.
  { apply Ascii.eqb_neq. intros ->. discriminate. }
  pose proof (chars_uint_uint_chars (N.to_uint m) rest Hrest) as Hd.
  rewrite Hc in *. rewrite Hminus, Hd, to_uint_normal.
  destruct (uint_eq_dec _ _); [|done].
  by rewrite continues_number_ends_value, DecimalN.Unsigned.of_to.
Qed.

Lemma parse_number_number_chars (n : Z) (rest : list ascii) :
  ends_value rest -> parse_number (number_chars n ++ rest) = Some (n, rest).
Proof.
  intros Hrest. unfold number_chars. destruct (Z.ltb_spec n 0%Z) as [Hneg|Hpos].
  - unfold parse_number. cbn [app].
    change (("-" =? "-")%char) with true. cbn iota.
    rewrite chars_uint_uint_chars, to_uint_normal by done.
    destruct (uint_eq_dec _ _); [|done].
    rewrite continues_number_ends_value, DecimalN.Unsigned.of_to by done.
    rewrite N2Z.inj_abs_N. do 2 f_equal. lia.
  - rewrite parse_number_unsigned by done.
    rewrite N2Z.inj_abs_N. do 2 f_equal. lia.
Qed.

(** ** Strings *)

Lemma parse_string_body_escape (s rest : list ascii) :
  parse_string_body (concat (map escape s) ++ DQUOTE :: rest) = Some (s, rest).
Proof.
  induction s as [|c s IH]; [done|].
  cbn [map concat]. rewrite <- (assoc_L (++)).
  destruct c as [[] [] [] [] [] [] [] []]; simpl; rewrite IH; reflexivity.
Qed.

Lemma parse_string_body_quote (s : string) (rest : list ascii) :
  exists t, quote (chars s) = DQUOTE :: t /\
            parse_string_body (t ++ rest) = Some (chars s, rest).
Proof.
  exists (concat (map escape (chars s)) ++ [DQUOTE]). split; [reflexivity|].
  rewrite <- (assoc_L (++)). apply parse_string_body_escape.
Qed.

(** ** Values *)

Lemma skip_ws_value_start (c : ascii) (r : list ascii) :
  value_start c = true -> skip_ws (c :: r) = c :: r.
Proof. destruct c as [[] [] [] [] [] [] [] []]; try discriminate; reflexivity. Qed.

Lemma parse_value_number (fuel : nat) (c : ascii) (t : list ascii) :
  is_digit c = true \/ c = "-"%char ->
  parse_value (S fuel) (c :: t)
  = '(n, r') ← parse_number (c :: t); Some (JsNumber n, r').
Proof.
  destruct c as [[] [] [] [] [] [] [] []]; intros [H|H]; try discriminate; reflexivity.
Qed.

Lemma serialize_array (items : list JsValue) :
  serialize (JsArray items) = Some ("["%char :: join_comma (map element items) ++ ["]"%char]).
Proof. reflexivity. Qed.

Lemma serialize_object (props : list (string * JsValue)) :
  serialize (JsObject props) = Some ("{"%char :: join_comma (omap member props) ++ ["}"%char]).
Proof. reflexivity. Qed.

Lemma serialize_head (v : JsValue) :
  json_serializable v = true ->
  exists c t, serialize v = Some (c :: t) /\ value_start c = true.
Proof.
  destruct v as [| |[]|n|s|items|props]; try discriminate; intros _;
    try (simpl; eauto; fail).
  - simpl. unfold number_chars. destruct (n <? 0)%Z.
    + eauto.
    + assert (N.to_uint (Z.abs_N n) <> Nil) as Hnil.
      { intros H. pose proof (to_uint_normal (Z.abs_N n)) as Hn.
        rewrite H in Hn. discriminate. }
      destruct (uint_chars_head _ [] Hnil) as (c & t & Hc & Hdigit).
      rewrite app_nil_r in Hc. rewrite Hc. exists c, t. split; [done|].
      unfold value_start. by rewrite Hdigit.
Qed.

#[local] Arguments join_comma : simpl never.
#[local] Arguments parse_value : simpl never.
#[local] Arguments parse_elements : simpl never.
#[local] Arguments parse_members : simpl never.
#[local] Arguments parse_string_body : simpl never.
#[local] Arguments skip_ws : simpl never.

Lemma join_comma_cons (p q : list ascii) (ps : list (list ascii)) :
  join_comma (p :: q :: ps) = p ++ ","%char :: join_comma (q :: ps).
Proof. reflexivity. Qed.

Lemma parse_elements_S (fuel : nat) (s : list ascii) :
  parse_elements (S fuel) s
  = '(v, r) ← parse_value fuel s;
    match skip_ws r with
    | ","%char :: r' => '(vs, r'') ← parse_elements fuel r'; Some (v :: vs, r'')
    | "]"%char :: r' => Some ([v], r')
    | _ => None
    end.
Proof. reflexivity. Qed.

Lemma parse_elements_join (items : list JsValue) :
  Forall (fun x => json_serializable x = true ->
            exists t, serialize x = Some t /\
              forall fuel rest, length t <= fuel -> ends_value rest ->
                parse_value fuel (t ++ rest) = Some (x, rest)) items ->
  forallb json_serializable items = true ->
  items <> [] ->
  forall fuel rest,
    S (length (join_comma (map element items))) <= fuel ->
    parse_elements fuel (join_comma (map element items) ++ "]"%char :: rest)
    = Some (items, rest).
Proof.
  induction 1 as [|x items Hx _ IH]; [done|].
  intros Hok _ fuel rest Hfuel. simpl in Hok. apply andb_true_iff in Hok as [Hokx Hok].
  destruct (Hx Hokx) as (t & Ht & Hparse).
  assert (element x = t) as Hel by (unfold element; by rewrite Ht).
  destruct fuel as [|fuel]; [lia|].
  rewrite parse_elements_S.
  destruct items as [|y items].
  - change (join_comma (map element [x])) with (element x) in *.
    rewrite Hel in *.
    rewrite (Hparse fuel ("]"%char :: rest)) by (simpl; eauto; lia).
    reflexivity.
  - simpl in *. rewrite join_comma_cons in *.
    rewrite Hel in *. rewrite length_app in Hfuel. simpl in Hfuel.
    rewrite <- (assoc_L (++)). simpl.
    rewrite (Hparse fuel) by (simpl; eauto; lia).
    simpl. rewrite IH by (done || lia). reflexivity.
Qed.

Lemma define_property_fresh (o : list (string * JsValue)) (k : string) (v : JsValue) :
  existsb (String.eqb k) (map fst o) = false ->
  define_property o k v = o ++ [(k, v)].
Proof.
  induction o as [|[k' v'] o IH]; simpl; [done|].
  intros H. apply orb_false_iff in H as [Hk Ho].
  rewrite String.eqb_sym, Hk. by rewrite IH.
Qed.

Lemma build_object_distinct (props : list (string * JsValue)) :
  distinct (map fst props) = true -> build_object props = JsObject props.
Proof.
  unfold build_object. intros H. f_equal.
  enough (forall acc, distinct (map fst (acc ++ props)) = true ->
            fold_left (fun o '(k, v) => define_property o k v) props acc = acc ++ props)
    as Hgen by apply (Hgen []), H.
  clear H. induction props as [|[k v] props IH]; intros acc Hacc; simpl.
  - by rewrite app_nil_r.
  - rewrite define_property_fresh.
    + rewrite IH; rewrite <- (assoc_L (++)); done.
    + clear IH. induction acc as [|[k' v'] acc IH]; simpl in *; [done|].
      apply andb_true_iff in Hacc as [Hk' Hacc]. rewrite (IH Hacc), orb_false_r.
      apply negb_true_iff in Hk'. rewrite map_app, existsb_app in Hk'. simpl in Hk'.
      apply orb_false_iff in Hk' as [_ Hk']. apply orb_false_iff in Hk' as [Hk' _].
      by rewrite String.eqb_sym.
Qed.

Lemma parse_members_S (fuel : nat) (s : list ascii) :
  parse_members (S fuel) s
  = match skip_ws s with
    | DQUOTE :: r =>
        '(k, r1) ← parse_string_body r;
        match skip_ws r1 with
        | ":"%char :: r2 =>
            '(v, r3) ← parse_value fuel r2;
            match skip_ws r3 with
            | ","%char :: r4 =>
                '(ms, r5) ← parse_members fuel r4;
                Some ((string_of_list_ascii k, v) :: ms, r5)
            | "}"%char :: r4 => Some ([(string_of_list_ascii k, v)], r4)
            | _ => None
            end
        | _ => None
        end
    | _ => None
    end.
Proof. reflexivity. Qed.

Lemma parse_members_join (props : list (string * JsValue)) :
  Forall (fun kx => json_serializable kx.2 = true ->
            exists t, serialize kx.2 = Some t /\
              forall fuel rest, length t <= fuel -> ends_value rest ->
                parse_value fuel (t ++ rest) = Some (kx.2, rest)) props ->
  forallb (fun kx => json_serializable kx.2) props = true ->
  props <> [] ->
  forall fuel rest,
    S (length (join_comma (omap member props))) <= fuel ->
    parse_members fuel (join_comma (omap member props) ++ "}"%char :: rest)
    = Some (props, rest).
Proof.
  induction 1 as [|[k x] props Hx _ IH]; [done|].
  intros Hok _ fuel rest Hfuel. simpl in Hok. apply andb_true_iff in Hok as [Hokx Hok].
  destruct (Hx Hokx) as (t & Ht & Hparse). simpl in Ht, Hparse.
  assert (member (k, x) = Some (quote (chars k) ++ ":"%char :: t)) as Hm
    by (unfold member; simpl; by rewrite Ht).
  destruct (parse_string_body_quote k (":"%char :: t ++
             match props with
             | [] => "}"%char :: rest
             | _ => ","%char :: join_comma (omap member props) ++ "}"%char :: rest
             end)) as (q & Hq & Hk).
  destruct fuel as [|fuel]; [lia|].
  rewrite parse_members_S.
  cbn [omap list_omap] in *. rewrite Hm in *. clear Hm.
  destruct props as [|[k' y] props].
  - change (omap member []) with (@nil (list ascii)) in *.
    change (join_comma [quote (chars k) ++ ":"%char :: t])
      with (quote (chars k) ++ ":"%char :: t) in *.
    rewrite length_app in Hfuel. simpl in Hfuel.
    rewrite Hq. rewrite <- !(assoc_L (++)). simpl.
    simpl in Hk. rewrite Hk. simpl.
    rewrite (Hparse fuel ("}"%char :: rest)) by (simpl; eauto; lia).
    simpl. by rewrite string_of_list_ascii_of_string.
  - simpl in Hok. apply andb_true_iff in Hok as [Hoky Hok].
    assert (exists m, member (k', y) = Some m) as [m Hm].
    { unfold member. simpl. destruct (serialize_head y Hoky) as (c & u & -> & _). eauto. }
    assert (omap member ((k', y) :: props) = m :: omap member props) as Hom
      by (cbn [omap list_omap]; by rewrite Hm).
    rewrite Hom in *. rewrite join_comma_cons in *.
    rewrite !length_app in Hfuel. simpl in Hfuel.
    rewrite Hq. rewrite <- !(assoc_L (++)). simpl.
    simpl in Hk. rewrite Hk. simpl.
    rewrite (Hparse fuel) by (simpl; eauto; lia).
    simpl. rewrite IH; [by rewrite string_of_list_ascii_of_string| |done|lia].
    simpl. by rewrite Hoky.
Qed.

Lemma parse_value_S (fuel : nat) (c : ascii) (r : list ascii) :
  value_start c = true ->
  parse_value (S fuel) (c :: r)
  = match c :: r with
    | "n"%char :: "u"%char :: "l"%char :: "l"%char :: r => Some (JsNull, r)
    | "t"%char :: "r"%char :: "u"%char :: "e"%char :: r => Some (JsBool true, r)
    | "f"%char :: "a"%char :: "l"%char :: "s"%char :: "e"%char :: r =>
        Some (JsBool false, r)
    | DQUOTE :: r =>
        '(str, r') ← parse_string_body r;
        Some (JsString (string_of_list_ascii str), r')
    | "["%char :: r =>
        match skip_ws r with
        | "]"%char :: r' => Some (JsArray [], r')
        | _ => '(items, r') ← parse_elements fuel r; Some (JsArray items, r')
        end
    | "{"%char :: r =>
        match skip_ws r with
        | "}"%char :: r' => Some (JsObject [], r')
        | _ => '(members, r') ← parse_members fuel r; Some (build_object members, r')
        end
    | r => '(n, r') ← parse_number r; Some (JsNumber n, r')
    end.
Proof.
  intros Hc. unfold parse_value at 1. fold parse_elements. fold parse_members.
  by rewrite (skip_ws_value_start c r Hc).
Qed.

Lemma parse_value_serialize (v : JsValue) :
  json_serializable v = true ->
  exists t, serialize v = Some t /\
    forall fuel rest, length t <= fuel -> ends_value rest ->
      parse_value fuel (t ++ rest) = Some (v, rest).
Proof.
  induction v as [| |b|n|s|items IH|props IH] using JsValue_nested_ind; intros Hok.
  - discriminate.
  - eexists. split; [reflexivity|]. intros [|fuel] rest Hfuel Hrest; [simpl in Hfuel; lia|].
    reflexivity.
  - destruct b; (eexists; split; [reflexivity|]);
      intros [|fuel] rest Hfuel Hrest; (simpl in Hfuel; lia) || reflexivity.
  - destruct (serialize_head (JsNumber n) Hok) as (c & t & Ht & Hc).
    exists (c :: t). split; [done|]. intros [|fuel] rest Hfuel Hrest; [simpl in Hfuel; lia|].
    simpl in Ht. injection Ht as Ht.
    cbn [app]. rewrite parse_value_number.
    + change (c :: t ++ rest) with ((c :: t) ++ rest). rewrite <- Ht.
      by rewrite parse_number_number_chars.
    + unfold number_chars in Ht. destruct (n <? 0)%Z.
      * injection Ht as <- _. by right.
      * left. assert (N.to_uint (Z.abs_N n) <> Nil) as Hnil.
        { intros H. pose proof (to_uint_normal (Z.abs_N n)) as Hn.
          rewrite H in Hn. discriminate. }
        destruct (uint_chars_head _ [] Hnil) as (c' & t' & Hc' & Hdigit).
        rewrite app_nil_r in Hc'. congruence.
  - destruct (parse_string_body_quote s []) as (q & Hq & _).
    exists (DQUOTE :: q). split; [simpl; by rewrite Hq|].
    intros [|fuel] rest Hfuel Hrest; [simpl in Hfuel; lia|].
    destruct (parse_string_body_quote s rest) as (q' & Hq' & Hparse).
    assert (q' = q) as -> by congruence.
    cbn [app]. rewrite parse_value_S by done.
    rewrite Hparse. simpl. by rewrite string_of_list_ascii_of_string.
  - rewrite serialize_array. eexists. split; [reflexivity|].
    intros [|fuel] rest Hfuel Hrest; [simpl in Hfuel; lia|].
    cbn [app]. rewrite parse_value_S by done. rewrite <- (assoc_L (++)).
    destruct items as [|x items]; [reflexivity|].
    assert (S (length (join_comma (map element (x :: items)))) <= fuel) as Hfuel'.
    { set (J := join_comma (map element (x :: items))) in *.
      cbn [length] in Hfuel. rewrite length_app in Hfuel. simpl in Hfuel. lia. }
    pose proof (parse_elements_join (x :: items) IH Hok ltac:(done) fuel rest Hfuel')
      as Hparse.
    assert (json_serializable x = true) as Hx
      by (simpl in Hok; by apply andb_true_iff in Hok as [? _]).
    destruct (serialize_head x Hx) as (c & t & Ht & Hc).
    assert (exists u, join_comma (map element (x :: items)) ++ ["]"%char] ++ rest = c :: u)
      as [u Hu].
    { destruct items; simpl; rewrite ?join_comma_cons; unfold element at 1;
        rewrite Ht; simpl; eauto. }
    simpl in Hparse. simpl in Hu. simpl. rewrite Hu in *.
    rewrite skip_ws_value_start by done.
    destruct c as [[] [] [] [] [] [] [] []]; try discriminate Hc; by rewrite Hparse.
  - rewrite serialize_object. eexists. split; [reflexivity|].
    intros [|fuel] rest Hfuel Hrest; [simpl in Hfuel; lia|].
    simpl in Hok. apply andb_true_iff in Hok as [Hkeys Hok].
    cbn [app]. rewrite parse_value_S by done. rewrite <- (assoc_L (++)).
    destruct props as [|[k x] props]; [reflexivity|].
    assert (S (length (join_comma (omap member ((k, x) :: props)))) <= fuel) as Hfuel'.
    { set (J := join_comma (omap member ((k, x) :: props))) in *.
      cbn [length] in Hfuel. rewrite length_app in Hfuel. simpl in Hfuel. lia. }
    pose proof (parse_members_join ((k, x) :: props) IH Hok ltac:(done) fuel rest Hfuel')
      as Hparse.
    assert (json_serializable x = true) as Hx
      by (simpl in Hok; by apply andb_true_iff in Hok as [? _]).
    destruct (serialize_head x Hx) as (c & t & Ht & Hc).
    assert (exists u, join_comma (omap member ((k, x) :: props)) ++ ["}"%char] ++ rest
                      = DQUOTE :: u) as [u Hu].
    { cbn [omap list_omap]. unfold member at 1. simpl. rewrite Ht.
      destruct (omap member props); simpl; rewrite ?join_comma_cons; simpl; eauto. }
    simpl in Hparse. simpl in Hu. simpl. rewrite Hu in *.
    rewrite Hparse. simpl. by rewrite build_object_distinct.
Qed.

(** [JSON.parse(JSON.stringify(v))] is [v] for every value that JSON
    represents. *)
Lemma JSON_parse_stringify (v : JsValue) :
  json_serializable v = true ->
  exists text, JSON_stringify v = Some text /\ JSON_parse text = Some v.
Proof.
  intros Hok. destruct (parse_value_serialize v Hok) as (t & Ht & Hparse).
  exists (string_of_list_ascii t). unfold JSON_stringify, JSON_parse, chars.
  rewrite Ht. split; [done|].
  rewrite list_ascii_of_string_of_list_ascii.
  specialize (Hparse (S (length t)) [] ltac:(lia) I). rewrite app_nil_r in Hparse.
  by rewrite Hparse.
Qed.

End JsonFacts.

(* ===================================================================== *)
(** * Properties of the adapter's calls *)
(* ===================================================================== *)

Module CallFacts.

#[local] Open Scope nat_scope.
#[local] Arguments settle : simpl never.
#[local] Arguments release_connection : simpl never.

(** ** [run] through the combinators *)

Lemma run_bind {A B : Type} (p : Async A) (f : A -> Async B) (reach : list bool) (w : World) :
  run (bind p f) reach w
  = match run p reach w with
    | (w', reach', Fulfilled a) => run (f a) reach' w'
    | (w', reach', Failed e) => (w', reach', Failed e)
    | (w', reach', Pending) => (w', reach', Pending)
    end.
Proof.
  revert reach w. induction p as [A a|A e|A rq k IH|A C g k IH|A n q _ k IH] using Async_ind;
    intros reach w; simpl; try done.
  - destruct (settle _ _ _) as [[r w']|]; [apply IH|done].
  - destruct (g w) as [b w']. apply IH.
Qed.

Lemma run_try_catch {A : Type} (p : Async A) (h : JsError -> Async A)
    (reach : list bool) (w : World) :
  run (try_catch p h) reach w
  = match run p reach w with
    | (w', reach', Failed e) => run (h e) reach' w'
    | other => other
    end.
Proof.
  revert reach w. induction p as [A a|A e|A rq k IH|A C g k IH|A n q _ k IH] using Async_ind;
    intros reach w; simpl; try done.
  - destruct (settle _ _ _) as [[r w']|]; [apply IH|done].
  - destruct (g w) as [b w']. apply IH.
Qed.

Lemma run_finally {A : Type} (p : Async A) (f : Async unit) (reach : list bool) (w : World) :
  run (finally p f) reach w
  = match run p reach w with
    | (w', reach', Pending) => (w', reach', Pending)
    | (w', reach', out) =>
        match run f reach' w' with
        | (w'', reach'', Fulfilled _) => (w'', reach'', out)
        | (w'', reach'', Failed e) => (w'', reach'', Failed e)
        | (w'', reach'', Pending) => (w'', reach'', Pending)
        end
    end.
Proof.
  revert reach w. induction p as [A a|A e|A rq k IH|A C g k IH|A n q _ k IH] using Async_ind;
    intros reach w; simpl; try done.
  - rewrite run_bind. by destruct (run f reach w) as [[? ?] []].
  - rewrite run_bind. by destruct (run f reach w) as [[? ?] []].
  - destruct (settle _ _ _) as [[r w']|]; [apply IH|done].
  - destruct (g w) as [b w']. apply IH.
Qed.

(** ** Connections in use *)

Lemma in_use_print (l : LogLine) (w : World) (q : nat) : in_use (print l w) q = in_use w q.
Proof. reflexivity. Qed.

Lemma in_use_set_db (d : Database) (w : World) (q : nat) : in_use (set_db d w) q = in_use w q.
Proof. reflexivity. Qed.

Lemma in_use_check_out (w : World) (p q : nat) :
  is_Some (pools w !! p) ->
  in_use (set_pools (alter check_out p) w) q
  = if decide (p = q) then S (in_use w q) else in_use w q.
Proof.
  intros [pl Hpl]. unfold in_use. simpl. destruct (decide (p = q)) as [<-|Hne].
  - by rewrite list_lookup_alter_eq, Hpl.
  - by rewrite list_lookup_alter_ne.
Qed.

Lemma in_use_release (w : World) (p q : nat) :
  in_use (release_connection {| of_pool := p |} w) q
  = if decide (p = q) then Nat.pred (in_use w q) else in_use w q.
Proof.
  unfold in_use, release_connection. simpl. destruct (decide (p = q)) as [<-|Hne].
  - rewrite list_lookup_alter_eq. by destruct (pools w !! p).
  - by rewrite list_lookup_alter_ne.
Qed.

(** How the driver settles [getConnection]. *)
Lemma settle_getConnection_cases (reachable : bool) (p : nat) (w : World) :
  match settle reachable (PoolGetConnection p) w with
  | None => True
  | Some (Rejected _, w') => w' = w
  | Some (Resolved v, w') =>
      v = Connection {| of_pool := p |} /\
      w' = set_pools (alter check_out p) w /\
      is_Some (pools w !! p)
  end.
Proof.
  unfold settle. destruct (pools w !! p) as [pl|]; [|done].
  destruct (closed pl); [done|]. destruct reachable; simpl; [|done].
  destruct (_ <? _); [eauto|]. by destruct (waitForConnections _).
Qed.

Lemma settle_sql_in_use (reachable : bool) (rq : Request) (r : Reply) (w w' : World) (q : nat) :
  (forall p, rq <> PoolGetConnection p) ->
  settle reachable rq w = Some (r, w') ->
  in_use w' q = in_use w q.
Proof.
  intros Hrq. unfold settle. destruct rq as [p|c s|c s|p]; [by destruct (Hrq p)|..];
    destruct reachable; try (intros [= <- <-]; done);
    destruct (run_sql s (db w)) as [r' d]; by intros [= <- <-].
Qed.

(** ** Steady calls *)

Lemma steady_Return {A : Type} (a : A) : steady (Return a).
Proof. intros reach w w' reach' out [= <- <- <-] _ q. done. Qed.

Lemma steady_Throw {A : Type} (e : JsError) : steady (@Throw A e).
Proof. intros reach w w' reach' out [= <- <- <-] _ q. done. Qed.

Lemma steady_bind {A B : Type} (p : Async A) (f : A -> Async B) :
  steady p -> (forall a, steady (f a)) -> steady (p ≫= f).
Proof.
  intros Hp Hf reach w w' reach' out. unfold mbind, Async_bind. rewrite run_bind.
  destruct (run p reach w) as [[w1 reach1] [a|e|]] eqn:E.
  - intros Hrun Hout q. rewrite (Hf a _ _ _ _ _ Hrun Hout q).
    by apply (Hp _ _ _ _ _ E).
  - intros [= <- <- <-] _ q. by apply (Hp _ _ _ _ _ E).
  - by intros [= <- <- <-] Hout.
Qed.

Lemma steady_try_catch {A : Type} (p : Async A) (h : JsError -> Async A) :
  steady p -> (forall e, steady (h e)) -> steady (try_catch p h).
Proof.
  intros Hp Hh reach w w' reach' out. rewrite run_try_catch.
  destruct (run p reach w) as [[w1 reach1] [a|e|]] eqn:E.
  - intros [= <- <- <-] _ q. by apply (Hp _ _ _ _ _ E).
  - intros Hrun Hout q. rewrite (Hh e _ _ _ _ _ Hrun Hout q).
    by apply (Hp _ _ _ _ _ E).
  - by intros [= <- <- <-] Hout.
Qed.

Lemma steady_write (g : World -> World) :
  (forall w q, in_use (g w) q = in_use w q) -> steady (write g).
Proof. intros Hg reach w w' reach' out [= <- <- <-] _ q. apply Hg. Qed.

Lemma steady_console_log (msg : string) : steady (console_log msg).
Proof. by apply steady_write. Qed.

Lemma steady_console_error (msg : string) (e : JsError) : steady (console_error msg e).
Proof. by apply steady_write. Qed.

Lemma steady_connection_query (c : PoolConnection) (q : Sql) : steady (connection_query c q).
Proof.
  intros reach w w' reach' out. simpl.
  destruct (settle _ _ _) as [[r w1]|] eqn:E; [|by intros [= <- <- <-] Hout].
  intros Hrun _ p. apply (settle_sql_in_use _ _ _ _ _ p) in E; [|done].
  destruct r; injection Hrun as <- _ _; done.
Qed.

Lemma steady_connection_execute (c : PoolConnection) (q : Sql) :
  steady (connection_execute c q).
Proof.
  intros reach w w' reach' out. simpl.
  destruct (settle _ _ _) as [[r w1]|] eqn:E; [|by intros [= <- <- <-] Hout].
  intros Hrun _ p. apply (settle_sql_in_use _ _ _ _ _ p) in E; [|done].
  destruct r; injection Hrun as <- _ _; done.
Qed.

(** The first statement of the frame: the connection, or the error of
    [getConnection], which has been printed. *)
Lemma run_acquire (reach : list bool) (w : World) :
  run (try_catch (connection ← getConnection; Return (inr connection))
                 (fun error => Return (inl error))) reach w
  = match settle (hd true reach) (PoolGetConnection (this_pool w)) w with
    | None => (w, reach, Pending)
    | Some (Resolved (Connection c), w') => (w', tl reach, Fulfilled (inr c))
    | Some (Resolved _, w') =>
        (print (console_error_line "Error acquiring connection:" ConnectionLost) w',
         tl reach, Fulfilled (inl ConnectionLost))
    | Some (Rejected e, w') =>
        (print (console_error_line "Error acquiring connection:" e) w',
         tl reach, Fulfilled (inl e))
    end.
Proof.
  simpl. destruct (settle _ _ _) as [[[[]|] w']|]; reflexivity.
Qed.

Lemma steady_with_connection {A : Type} (body : PoolConnection -> Async A)
    (handler : JsError -> Async A) :
  (forall c, steady (body c)) ->
  (forall e, steady (handler e)) ->
  steady (with_connection body handler).
Proof.
  intros Hbody Hhandler reach w w' reach' out. unfold with_connection.
  unfold mbind at 1, Async_bind at 1. rewrite run_bind, run_acquire.
  pose proof (settle_getConnection_cases (hd true reach) (this_pool w) w) as Hsettle.
  destruct (settle _ _ _) as [[[v|e] w1]|]; [| |by intros [= <- <- <-] Hout].
  - destruct Hsettle as (-> & -> & Hpool). rewrite run_finally.
    destruct (run (try_catch _ _) _ _) as [[w2 reach2] out2] eqn:E.
    assert (out2 <> Pending -> forall q,
              in_use w2 q = in_use (set_pools (alter check_out (this_pool w)) w) q) as Hw2.
    { intros Hout2. by apply (steady_try_catch _ _ (Hbody _) Hhandler _ _ _ _ _ E). }
    assert (forall q, out2 <> Pending ->
              in_use (release_connection {| of_pool := this_pool w |} w2) q = in_use w q)
      as Hback.
    { intros q Hout2. rewrite in_use_release, (Hw2 Hout2), in_use_check_out by done.
      by destruct (decide _). }
    destruct out2; simpl; intros [= <- <- <-] Hout q; (by apply Hback) || done.
  - subst w1. intros Hrun Hout q.
    by rewrite (Hhandler e _ _ _ _ _ Hrun Hout q).
Qed.

Lemma steady_createTable : steady createTable.
Proof.
  apply steady_with_connection.
  - intros c. apply steady_bind; [apply steady_connection_query|].
    intros _. apply steady_console_log.
  - intros e. apply steady_bind; [apply steady_console_error|].
    intros _. apply steady_Throw.
Qed.

Lemma steady_checkTableExists : steady checkTableExists.
Proof.
  apply steady_with_connection.
  - intros c. apply steady_bind; [apply steady_connection_query|].
    intros rows. destruct (no_rows rows); [apply steady_createTable|apply steady_Return].
  - intros e. apply steady_bind; [apply steady_console_error|].
    intros _. apply steady_Throw.
Qed.

Lemma steady_save (ctx : Ctx) : steady (save ctx).
Proof.
  apply steady_with_connection.
  - intros c. apply steady_bind; [apply steady_connection_execute|].
    intros _. apply steady_Return.
  - intros e. apply steady_bind; [apply steady_console_error|].
    intros _. apply steady_Throw.
Qed.

Lemma steady_getPrevByNumber (from : string) : steady (getPrevByNumber from).
Proof.
  apply steady_with_connection.
  - intros c. apply steady_bind; [apply steady_connection_query|].
    intros rows. destruct (first_row rows) as [[row|]|].
    + destruct (JSON_parse _); [apply steady_Return|apply steady_Throw].
    + apply steady_Throw.
    + apply steady_Return.
  - intros e. apply steady_bind; [apply steady_console_error|].
    intros _. apply steady_Throw.
Qed.

(** ** Calls come to their end *)

Lemma available_same (k : nat) (w w' : World) :
  this_pool w' = this_pool w -> pools w' = pools w -> available k w -> available k w'.
Proof. intros Hp Hps (pl & Hpl & H). exists pl. by rewrite Hp, Hps. Qed.

Lemma available_less (k : nat) (w : World) : available (S k) w -> available k w.
Proof. intros (pl & Hpl & Hopen & Hroom). exists pl. repeat split; try done. lia. Qed.

Lemma completes_Return {A : Type} (k : nat) (a : A) : completes k (Return a).
Proof. intros reach w _. by eexists _, _, _. Qed.

Lemma completes_Throw {A : Type} (k : nat) (e : JsError) : completes k (@Throw A e).
Proof. intros reach w _. by eexists _, _, _. Qed.

Lemma completes_bind {A B : Type} (k : nat) (p : Async A) (f : A -> Async B) :
  completes k p -> (forall a, completes k (f a)) -> completes k (p ≫= f).
Proof.
  intros Hp Hf reach w Hw. unfold mbind, Async_bind. rewrite run_bind.
  destruct (Hp reach w Hw) as (w1 & reach1 & out1 & -> & Hout1 & Hpool1 & Hpools1).
  destruct out1 as [a|e|]; [|by eexists _, _, _|done].
  destruct (Hf a reach1 w1) as (w2 & reach2 & out2 & -> & Hout2 & Hpool2 & Hpools2).
  { by apply (available_same k w). }
  eexists _, _, _. repeat split; [done|congruence..].
Qed.

Lemma completes_try_catch {A : Type} (k : nat) (p : Async A) (h : JsError -> Async A) :
  completes k p -> (forall e, completes k (h e)) -> completes k (try_catch p h).
Proof.
  intros Hp Hh reach w Hw. rewrite run_try_catch.
  destruct (Hp reach w Hw) as (w1 & reach1 & out1 & -> & Hout1 & Hpool1 & Hpools1).
  destruct out1 as [a|e|]; [by eexists _, _, _| |done].
  destruct (Hh e reach1 w1) as (w2 & reach2 & out2 & -> & Hout2 & Hpool2 & Hpools2).
  { by apply (available_same k w). }
  eexists _, _, _. repeat split; [done|congruence..].
Qed.

Lemma completes_console_log (k : nat) (msg : string) : completes k (console_log msg).
Proof. intros reach w _. by eexists _, _, _. Qed.

Lemma completes_console_error (k : nat) (msg : string) (e : JsError) :
  completes k (console_error msg e).
Proof. intros reach w _. by eexists _, _, _. Qed.

Lemma settle_sql_pools (reachable : bool) (rq : Request) (w : World) :
  (forall p, rq <> PoolGetConnection p) ->
  exists r w', settle reachable rq w = Some (r, w') /\
               this_pool w' = this_pool w /\ pools w' = pools w.
Proof.
  intros Hrq. unfold settle. destruct rq as [p|c s|c s|p]; [by destruct (Hrq p)|..];
    destruct reachable; try (by eexists _, _);
    destruct (run_sql s (db w)) as [r' d]; by eexists _, _.
Qed.

Lemma completes_connection_query (k : nat) (c : PoolConnection) (q : Sql) :
  completes k (connection_query c q).
Proof.
  intros reach w _. simpl.
  destruct (settle_sql_pools (hd true reach) (ConnectionQuery c q) w ltac:(done))
    as (r & w' & -> & Hpool & Hpools).
  destruct r; by eexists _, _, _.
Qed.

Lemma completes_connection_execute (k : nat) (c : PoolConnection) (q : Sql) :
  completes k (connection_execute c q).
Proof.
  intros reach w _. simpl.
  destruct (settle_sql_pools (hd true reach) (ConnectionExecute c q) w ltac:(done))
    as (r & w' & -> & Hpool & Hpools).
  destruct r; by eexists _, _, _.
Qed.

Lemma check_in_check_out (pl : Pool) : check_in (check_out pl) = pl.
Proof. by destruct pl. Qed.

Lemma completes_with_connection {A : Type} (k : nat) (body : PoolConnection -> Async A)
    (handler : JsError -> Async A) :
  (forall c, completes k (body c)) ->
  (forall e, completes k (handler e)) ->
  completes (S k) (with_connection body handler).
Proof.
  intros Hbody Hhandler reach w Hw. unfold with_connection.
  unfold mbind at 1, Async_bind at 1. rewrite run_bind, run_acquire.
  destruct Hw as (pl & Hpl & Hopen & Hroom).
  unfold settle at 1. rewrite Hpl, Hopen. destruct (hd true reach); simpl.
  - destruct (Nat.ltb_spec (checked_out pl) (connectionLimit (config pl))); [|lia].
    rewrite run_finally.
    destruct (completes_try_catch k _ _ (Hbody {| of_pool := this_pool w |}) Hhandler
                (tl reach) (set_pools (alter check_out (this_pool w)) w))
      as (w1 & reach1 & out1 & -> & Hout1 & Hpool1 & Hpools1).
    { exists (check_out pl). simpl. rewrite list_lookup_alter_eq, Hpl. simpl.
      repeat split; [done|lia]. }
    assert (pools (release_connection {| of_pool := this_pool w |} w1) = pools w) as Hback.
    { unfold release_connection. simpl. rewrite Hpools1. simpl.
      rewrite list_alter_alter_eq. apply list_alter_id. apply check_in_check_out. }
    destruct out1; [| |done]; by eexists _, _, _.
  - destruct (Hhandler ConnectionLost (tl reach)
                (print (console_error_line "Error acquiring connection:" ConnectionLost) w))
      as (w1 & reach1 & out1 & -> & H).
    { exists pl. simpl. repeat split; [done..|lia]. }
    by eexists _, _, _.
Qed.

Lemma completes_handler {A : Type} (k : nat) (msg : string) (e : JsError) :
  completes k (console_error msg e;; @Throw A e).
Proof.
  apply completes_bind; [apply completes_console_error|]. intros _. apply completes_Throw.
Qed.

Lemma completes_createTable : completes 1 createTable.
Proof.
  apply completes_with_connection; [|intros e; apply completes_handler].
  intros c. apply completes_bind; [apply completes_connection_query|].
  intros _. apply completes_console_log.
Qed.

Lemma completes_more {A : Type} (k : nat) (p : Async A) : completes k p -> completes (S k) p.
Proof. intros Hp reach w Hw. apply Hp. by apply available_less. Qed.

Lemma completes_checkTableExists : completes 2 checkTableExists.
Proof.
  apply completes_with_connection; [|intros e; apply completes_handler].
  intros c. apply completes_bind; [apply completes_connection_query|].
  intros rows. destruct (no_rows rows); [apply completes_createTable|apply completes_Return].
Qed.

Lemma completes_save (ctx : Ctx) : completes 1 (save ctx).
Proof.
  apply completes_with_connection; [|intros e; apply completes_handler].
  intros c. apply completes_bind; [apply completes_connection_execute|].
  intros _. apply completes_Return.
Qed.

Lemma completes_getPrevByNumber (from : string) : completes 1 (getPrevByNumber from).
Proof.
  apply completes_with_connection; [|intros e; apply completes_handler].
  intros c. apply completes_bind; [apply completes_connection_query|].
  intros rows. destruct (first_row rows) as [[row|]|].
  - destruct (JSON_parse _); [apply completes_Return|apply completes_Throw].
  - apply completes_Throw.
  - apply completes_Return.
Qed.

(** C6. Each of [getPrevByNumber], [save], [createTable] and
    [checkTableExists], run to its end from any state and whatever the
    server does (reachable or not at each request: success, a refused
    statement, a malformed [options], a lost connection), leaves every
    pool with exactly as many connections checked out as before the
    call. (A call does come to its end when the pool in use is open and
    has two connections to give, and then leaves the pools exactly as it
    found them.) *)
Theorem connections_are_released (op : Operation) (reach : list bool) (w w' : World)
    (reach' : list bool) (out : Outcome Value) :
  run (perform op) reach w = (w', reach', out) ->
  out <> Pending ->
  (forall q, in_use w' q = in_use w q) /\
  completes 2 (perform op).
Proof.
  intros Hrun Hout. split.
  - revert reach w w' reach' out Hrun Hout. change (steady (perform op)).
    destruct op as [from|ctx| |]; cbn [perform]; unfold void.
    + apply steady_bind; [apply steady_getPrevByNumber|]. intros prev. apply steady_Return.
    + apply steady_bind; [apply steady_save|]. intros _. apply steady_Return.
    + apply steady_bind; [apply steady_createTable|]. intros _. apply steady_Return.
    + apply steady_bind; [apply steady_checkTableExists|]. intros _. apply steady_Return.
  - destruct op as [from|ctx| |]; cbn [perform]; unfold void.
    + apply completes_bind; [apply completes_more, completes_getPrevByNumber|].
      intros prev. apply completes_Return.
    + apply completes_bind; [apply completes_more, completes_save|].
      intros _. apply completes_Return.
    + apply completes_bind; [apply completes_more, completes_createTable|].
      intros _. apply completes_Return.
    + apply completes_bind; [apply completes_checkTableExists|].
      intros _. apply completes_Return.
Qed.

Lemma connections_are_released_witness :
  let w := world (boot example_credentials blank_server) in
  in_use (run (perform op_checkTableExists) [true; true; true; false] w).1.1 0
  = in_use w 0.
Proof.
  intros w. apply (connections_are_released op_checkTableExists [true; true; true; false] w
                     _ [] (Failed ConnectionLost)).
  - reflexivity.
  - discriminate.
Defined.

(** The same calls on a server with rows. *)
Example getPrevByNumber_example :
  (run (getPrevByNumber "5491100000000") [] (world (boot example_credentials stocked_server))).2
  = Fulfilled (PrevRow {| id := 3; ref := "ans_3"; keyword := "key_3"; Mysql.answer := "doc";
                          refSerialize := "ser_3"; phone := "5491100000000";
                          options := JsArray [JsNumber 1; JsNumber 2]; created_at := 30 |}).
Proof. reflexivity. Qed.

Example save_example :
  (run (save example_ctx;; getPrevByNumber "5491100000000") []
       (world (boot example_credentials stocked_server))).2
  = Fulfilled (PrevRow {| id := 4; ref := "ans_1"; keyword := "key_1"; Mysql.answer := "36";
                          refSerialize := "ser_1"; phone := "5491100000000";
                          options := JsObject [("capture", JsBool true); ("delay", JsNumber 800)];
                          created_at := 40 |}).
Proof. reflexivity. Qed.

(** ** Reading and writing the table *)

Lemma set_db_same (w : World) : set_db (db w) w = w.
Proof. by destruct w. Qed.

Lemma order_by_id_desc_head (l : list (Row string)) :
  match order_by_id_desc l with
  | [] => l = []
  | x :: _ => x ∈ l /\ forall y, y ∈ l -> (id y <= id x)%Z
  end.
Proof.
  induction l as [|a l IH]; simpl; [done|].
  destruct (order_by_id_desc l) as [|x sorted]; simpl.
  - subst l. split; [set_solver|]. intros y Hy. apply list_elem_of_singleton in Hy as ->. lia.
  - destruct IH as [Hx Hmax]. destruct (Z.leb_spec (id x) (id a)).
    + split; [set_solver|]. intros y [->|Hy]%elem_of_cons; [lia|].
      specialize (Hmax y Hy). lia.
    + split; [set_solver|]. intros y [->|Hy]%elem_of_cons; [lia|]. by apply Hmax.
Qed.

Lemma run_with_connection {A : Type} (body : PoolConnection -> Async A)
    (handler : JsError -> Async A) (reach : list bool) (w : World) :
  available 1 w ->
  run (with_connection body handler) (true :: reach) w
  = match run (try_catch (body {| of_pool := this_pool w |}) handler) reach (taken w) with
    | (w', reach', Pending) => (w', reach', Pending)
    | (w', reach', out) => (given_back (this_pool w) w', reach', out)
    end.
Proof.
  intros (pl & Hpl & Hopen & Hroom). unfold with_connection.
  unfold mbind at 1, Async_bind at 1. rewrite run_bind, run_acquire.
  cbn [hd tl].
  assert (settle true (PoolGetConnection (this_pool w)) w
          = Some (Resolved (Connection {| of_pool := this_pool w |}), taken w)) as ->.
  { unfold settle. rewrite Hpl, Hopen. simpl.
    by destruct (Nat.ltb_spec (checked_out pl) (connectionLimit (config pl))); [|lia]. }
  rewrite run_finally. by destruct (run _ _ _) as [[w' reach'] []].
Qed.

Lemma in_use_given_back_taken (w : World) (d : Database) (q : nat) :
  is_Some (pools w !! this_pool w) ->
  in_use (given_back (this_pool w) (set_db d (taken w))) q = in_use w q.
Proof.
  intros Hpool. unfold given_back. rewrite in_use_release, in_use_set_db.
  unfold taken. rewrite in_use_check_out by done. by destruct (decide _).
Qed.

Lemma run_getPrevByNumber (from : string) (reach : list bool) (w : World) (t : Table) :
  available 1 w ->
  history (db w) = Some t ->
  run (getPrevByNumber from) (true :: true :: reach) w
  = match order_by_id_desc (where_phone (db w) from (rows t)) with
    | [] => (given_back (this_pool w) (taken w), reach, Fulfilled PrevEmpty)
    | row :: _ =>
        match JSON_parse (options row) with
        | Some parsed =>
            (given_back (this_pool w) (taken w), reach,
             Fulfilled (PrevRow (with_options row parsed)))
        | None =>
            (given_back (this_pool w)
               (print (console_error_line "Error in getPrevByNumber:" SyntaxError) (taken w)),
             reach, Failed SyntaxError)
        end
    end.
Proof.
  intros Hpool Hhistory. unfold getPrevByNumber. rewrite run_with_connection by done.
  rewrite run_try_catch. unfold mbind at 1, Async_bind at 1. rewrite run_bind.
  assert (run (connection_query {| of_pool := this_pool w |} (SELECT_history_BY_phone from))
            (true :: reach) (taken w)
          = (taken w, reach,
             Fulfilled (RowSet (order_by_id_desc (where_phone (db w) from (rows t)))))) as ->.
  { simpl. unfold settle. simpl. rewrite Hhistory. simpl.
    change (set_db (db w) (taken w)) with (set_db (db (taken w)) (taken w)).
    by rewrite set_db_same. }
  destruct (order_by_id_desc _) as [|row sorted]; [done|].
  simpl. by destruct (JSON_parse (options row)).
Qed.

(** A row whose [options] text [JSON.parse] refuses makes the call throw
    (after the frame has printed the error and given the connection
    back): the first row by descending id is the only one looked at. *)
Lemma getPrevByNumber_malformed_options (from : string) (reach : list bool) (w : World)
    (t : Table) (row : Row string) (sorted : list (Row string)) :
  available 1 w ->
  history (db w) = Some t ->
  order_by_id_desc (where_phone (db w) from (rows t)) = row :: sorted ->
  JSON_parse (options row) = None ->
  (run (getPrevByNumber from) (true :: true :: reach) w).2 = Failed SyntaxError.
Proof.
  intros Hpool Hhistory Hsorted Hparse.
  by rewrite (run_getPrevByNumber from reach w t), Hsorted, Hparse.
Qed.



Lemma run_save (ctx : Ctx) (text : string) (reach : list bool) (w : World) (t : Table) :
  available 1 w ->
  history (db w) = Some t ->
  JSON_stringify (ctx_options ctx) = Some text ->
  run (save ctx) (true :: true :: reach) w
  = (given_back (this_pool w)
       (set_db (after_insert (inserted ctx text (db w) t) t (db w)) (taken w)),
     reach, Fulfilled tt).
Proof.
  intros Hpool Hhistory Htext. unfold save. rewrite run_with_connection by done.
  rewrite run_try_catch. unfold mbind at 1, Async_bind at 1. rewrite run_bind.
  simpl. unfold settle. simpl. by rewrite Hhistory, Htext.
Qed.

(** The auto-increment invariant holds for a new table and is kept by
    every statement. *)
Lemma run_sql_ids_below_auto_increment (q : Sql) (d : Database) :
  (forall t, history d = Some t -> ids_below_auto_increment t) ->
  forall t', history (run_sql q d).2 = Some t' -> ids_below_auto_increment t'.
Proof.
  intros Hd t'. destruct q as [from|values| |]; simpl.
  - destruct (history d) eqn:E; simpl; rewrite E; intros [= <-]; by apply Hd.
  - destruct (history d) as [t|] eqn:E; simpl; [|by rewrite E].
    destruct values as [|[v1|] [|[v2|] [|[v3|] [|[v4|] [|[v5|] [|[v6|] [|]]]]]]];
      simpl; try (rewrite E; intros [= <-]; by apply Hd).
    intros [= <-] r. simpl. intros [Hr| ->%list_elem_of_singleton]%elem_of_app.
    + specialize (Hd t eq_refl r Hr). lia.
    + simpl. lia.
  - destruct (history d) eqn:E; simpl.
    + rewrite E. intros [= <-]. by apply Hd.
    + intros [= <-] r Hr. by apply elem_of_nil in Hr.
  - destruct (history d) eqn:E; simpl; rewrite E; intros [= <-]; by apply Hd.
Qed.



End CallFacts.

(* ===================================================================== *)
(** * More about single calls of the adapter *)
(* ===================================================================== *)

Module AdapterFacts.
Import Behaviour CallFacts.

#[local] Open Scope nat_scope.
#[local] Arguments settle : simpl never.
#[local] Arguments release_connection : simpl never.
#[local] Arguments createTable : simpl never.

(** ** The frame, case by case *)

Lemma run_handler {A : Type} (msg : string) (e : JsError) (reach : list bool) (w : World) :
  run (console_error msg e;; @Throw A e) reach w
  = (print (console_error_line msg e) w, reach, Failed e).
Proof. reflexivity. Qed.

Lemma run_frame {A : Type} (body : PoolConnection -> Async A)
    (handler : JsError -> Async A) (reach : list bool) (w : World) :
  run (with_connection body handler) reach w
  = match settle (hd true reach) (PoolGetConnection (this_pool w)) w with
    | None => (w, reach, Pending)
    | Some (Resolved (Connection c), w1) =>
        match run (try_catch (body c) handler) (tl reach) w1 with
        | (w2, reach2, Pending) => (w2, reach2, Pending)
        | (w2, reach2, out) => (release_connection c w2, reach2, out)
        end
    | Some (Resolved _, w1) =>
        run (handler ConnectionLost) (tl reach) (print (acquire_error ConnectionLost) w1)
    | Some (Rejected e, w1) =>
        run (handler e) (tl reach) (print (acquire_error e) w1)
    end.
Proof.
  unfold with_connection. unfold mbind at 1, Async_bind at 1. rewrite run_bind, run_acquire.
  destruct (settle _ _ _) as [[[[c| | |]|e] w1]|]; try reflexivity.
  rewrite run_finally. by destruct (run _ _ _) as [[w2 reach2] []].
Qed.

Lemma last_line_print (l : LogLine) (w : World) : last_line (print l w) = Some l.
Proof. unfold last_line. simpl. apply last_snoc. Qed.

Lemma last_line_release (c : PoolConnection) (w : World) :
  last_line (release_connection c w) = last_line w.
Proof. reflexivity. Qed.

Ltac last_printed := rewrite ?last_line_release; apply last_line_print.

Lemma set_history_same (d : Database) (t : Table) :
  history d = Some t -> set_history (Some t) d = d.
Proof. destruct d. simpl. by intros ->. Qed.

(** How a statement settles on a connection. *)
Lemma settle_query (reachable : bool) (c : PoolConnection) (q : Sql) (w : World) :
  settle reachable (ConnectionQuery c q) w
  = if reachable then Some ((run_sql q (db w)).1, set_db (run_sql q (db w)).2 w)
    else Some (Rejected ConnectionLost, w).
Proof. unfold settle. destruct reachable; [|done]. by destruct (run_sql q (db w)). Qed.

Lemma settle_execute (reachable : bool) (c : PoolConnection) (q : Sql) (w : World) :
  settle reachable (ConnectionExecute c q) w
  = if reachable then Some ((run_sql q (db w)).1, set_db (run_sql q (db w)).2 w)
    else Some (Rejected ConnectionLost, w).
Proof. unfold settle. destruct reachable; [|done]. by destruct (run_sql q (db w)). Qed.

(** ** A refused connection *)

Lemma run_perform_refused (op : Operation) (reach : list bool) (w : World) (e : JsError) :
  settle (hd true reach) (PoolGetConnection (this_pool w)) w = Some (Rejected e, w) ->
  run (perform op) reach w
  = (print (console_error_line (error_label op) e) (print (acquire_error e) w),
     tl reach, Failed e).
Proof.
  intros Hsettle.
  destruct op as [from|ctx| |]; cbn [perform]; unfold void, mbind, Async_bind;
    rewrite run_bind;
    [unfold getPrevByNumber|unfold save|unfold createTable|unfold checkTableExists];
    by rewrite run_frame, Hsettle.
Qed.

(** X1. When the pool refuses a connection (it has been ended, or the
    server cannot be reached), each of the four operations prints the
    error twice, first as [getConnection] ("Error acquiring connection:")
    and then under its own label, rejects with that same error, and
    leaves the pools and the server as they were: nothing is released,
    because nothing was acquired. *)
Theorem refused_connection_is_logged_and_rethrown (op : Operation) (reachable : bool)
    (reach : list bool) (w : World) (e : JsError) :
  settle reachable (PoolGetConnection (this_pool w)) w = Some (Rejected e, w) ->
  run (perform op) (reachable :: reach) w
  = (print (console_error_line (error_label op) e) (print (acquire_error e) w),
     reach, Failed e).
Proof.
  intros Hsettle.
  destruct op as [from|ctx| |]; cbn [perform error_label]; unfold void, mbind, Async_bind;
    rewrite run_bind;
    [unfold getPrevByNumber|unfold save|unfold createTable|unfold checkTableExists];
    rewrite run_frame; cbn [hd tl]; by rewrite Hsettle.
Qed.

Lemma refused_connection_is_logged_and_rethrown_witness :
  let w := world (boot example_credentials ready_server) in
  run (perform (op_save example_ctx)) [false] w
  = (print (console_error_line "Error in save:" ConnectionLost)
       (print (acquire_error ConnectionLost) w), [], Failed ConnectionLost).
Proof.
  intros w.
  apply (refused_connection_is_logged_and_rethrown (op_save example_ctx) false [] w
           ConnectionLost).
  reflexivity.
Defined.

(** ** [save], whatever the server does *)



(** X3. [save] of a record without options: [JSON.stringify(undefined)]
    is [undefined], the driver refuses to bind it, and the call is
    rejected with that error, printed under "Error in save:". No row is
    written and the connection is given back. *)
Theorem save_without_options_is_refused (ctx : Ctx) (reach : list bool) (w : World)
    (t : Table) :
  available 1 w ->
  history (db w) = Some t ->
  ctx_options ctx = JsUndefined ->
  exists w',
    run (save ctx) (true :: true :: reach) w = (w', reach, Failed BindUndefined) /\
    db w' = db w /\
    (forall q, in_use w' q = in_use w q) /\
    last_line w' = Some (console_error_line "Error in save:" BindUndefined).
Proof.
  intros Hpool Ht Hoptions. unfold save. rewrite run_with_connection by done.
  simpl. rewrite settle_execute. simpl. rewrite Ht, Hoptions. simpl.
  eexists. split; [reflexivity|]. repeat split.
  - intros q. destruct Hpool as (pl & Hpl & _).
    unfold given_back. rewrite in_use_release, !in_use_print, !in_use_set_db.
    unfold taken. rewrite in_use_check_out by eauto. by destruct (decide _).
  - last_printed.
Qed.

Lemma save_without_options_is_refused_witness :
  let w := world (boot example_credentials ready_server) in
  let ctx := {| ctx_ref := "ans_1"; ctx_keyword := "key_1"; ctx_answer := "hi";
                ctx_refSerialize := "ser_1"; ctx_from := "5491100000000";
                ctx_options := JsUndefined |} in
  exists w',
    run (save ctx) [true; true] w = (w', [], Failed BindUndefined) /\ db w' = db w.
Proof.
  intros w ctx.
  destruct (save_without_options_is_refused ctx [] w {| rows := []; auto_increment := 1 |})
    as (w' & Hrun & Hdb & _).
  - exists (fresh_pool example_credentials). repeat split; simpl; lia.
  - reflexivity.
  - reflexivity.
  - exists w'. split; [exact Hrun|exact Hdb].
Defined.

(** ** [getPrevByNumber], whatever the server does *)



(** X5. Without the [history] table neither call makes up for it:
    [getPrevByNumber] is rejected with the server's error instead of
    answering [{}], [save] is rejected with it instead of creating the
    table, and the server is left without the table. *)
Theorem missing_table_is_an_error (reach : list bool) (w : World) :
  available 1 w ->
  history (db w) = None ->
  (forall from, exists w',
     run (getPrevByNumber from) (true :: true :: reach) w = (w', reach, Failed NoSuchTable) /\
     db w' = db w) /\
  (forall ctx text,
     JSON_stringify (ctx_options ctx) = Some text ->
     exists w',
       run (save ctx) (true :: true :: reach) w = (w', reach, Failed NoSuchTable) /\
       db w' = db w).
Proof.
  intros Hpool Ht. split.
  - intros from. unfold getPrevByNumber. rewrite run_with_connection by done.
    simpl. rewrite settle_query. simpl. rewrite Ht. simpl. by eexists.
  - intros ctx text Htext. unfold save. rewrite run_with_connection by done.
    simpl. rewrite settle_execute. simpl. rewrite Ht. simpl. by eexists.
Qed.

Lemma missing_table_is_an_error_witness :
  let w := world (boot example_credentials blank_server) in
  exists w',
    run (getPrevByNumber "5491100000000") [true; true] w = (w', [], Failed NoSuchTable) /\
    db w' = db w.
Proof.
  intros w.
  assert (available 1 w) as Hpool.
  { exists (fresh_pool example_credentials). repeat split; simpl; lia. }
  exact (proj1 (missing_table_is_an_error [] w Hpool eq_refl) "5491100000000").
Defined.

(** X6. A [save] for one subscriber does not change what
    [getPrevByNumber] answers for another: when the saved number does
    not match [other] under the table's collation, the call for [other]
    after the save answers what it would have answered before it. *)
Theorem save_leaves_other_subscribers (ctx : Ctx) (other text : string)
    (reach : list bool) (w : World) (t : Table) :
  available 1 w ->
  history (db w) = Some t ->
  JSON_stringify (ctx_options ctx) = Some text ->
  collation (db w) (ctx_from ctx) other = false ->
  (run (save ctx;; getPrevByNumber other) (true :: true :: true :: true :: reach) w).2
  = (run (getPrevByNumber other) (true :: true :: reach) w).2.
Proof.
  intros Hpool Ht Htext Hother.
  unfold mbind, Async_bind. rewrite run_bind, (run_save ctx text _ w t) by done.
  set (row := inserted ctx text (db w) t).
  set (w1 := given_back _ _).
  assert (available 1 w1) as Hpool1.
  { destruct Hpool as (pl & Hpl & Hopen & Hroom). exists pl.
    unfold w1, given_back, taken, release_connection. simpl.
    rewrite !list_lookup_alter_eq, Hpl. simpl. by destruct pl. }
  rewrite (run_getPrevByNumber _ _ w1 {| rows := rows t ++ [row];
                                         auto_increment := (auto_increment t + 1)%Z |})
    by done.
  rewrite (run_getPrevByNumber _ _ w t) by done.
  cbn [rows].
  assert (where_phone (db w1) other (rows t ++ [row]) = where_phone (db w) other (rows t))
    as ->.
  { unfold where_phone. rewrite filter_app, filter_cons, filter_nil. simpl.
    rewrite decide_False by (rewrite Hother; done). apply app_nil_r. }
  destruct (order_by_id_desc _) as [|first sorted]; [done|].
  by destruct (JSON_parse (options first)).
Qed.

Lemma save_leaves_other_subscribers_witness :
  let w := world (boot example_credentials stocked_server) in
  (run (save example_ctx;; getPrevByNumber "34600000000") [true; true; true; true] w).2
  = (run (getPrevByNumber "34600000000") [true; true] w).2.
Proof.
  intros w.
  refine (save_leaves_other_subscribers example_ctx "34600000000" _ [] w _ _ eq_refl eq_refl
            eq_refl).
  exists (fresh_pool example_credentials). repeat split; simpl; lia.
Defined.

(** ** The bootstrap *)

Lemma ensured_present (d : Database) (t : Table) : history d = Some t -> ensured d = d.
Proof. intros Ht. unfold ensured. rewrite Ht. by apply set_history_same. Qed.

Lemma ensured_ensured (d : Database) : ensured (ensured d) = ensured d.
Proof. by apply (ensured_present _ (default {| rows := []; auto_increment := 1 |} (history d))). Qed.

Lemma run_sql_create (d : Database) :
  run_sql CREATE_TABLE_IF_NOT_EXISTS_history d = (Resolved OkPacket, ensured d).
Proof.
  simpl. destruct (history d) as [t|] eqn:Ht.
  - by rewrite (ensured_present d t).
  - unfold ensured. by rewrite Ht.
Qed.

Lemma run_sql_show (d : Database) :
  run_sql SHOW_TABLES_LIKE_history d
  = (Resolved (NameSet match history d with
                       | Some _ => ["history"%string]
                       | None => []
                       end), d).
Proof. simpl. by destruct (history d). Qed.

Lemma run_connection_query (c : PoolConnection) (q : Sql) (reach : list bool) (w : World) :
  run (connection_query c q) reach w
  = if hd true reach
    then (set_db (run_sql q (db w)).2 w, tl reach,
          match (run_sql q (db w)).1 with
          | Resolved v => Fulfilled v
          | Rejected e => Failed e
          end)
    else (w, tl reach, Failed ConnectionLost).
Proof.
  simpl. rewrite settle_query. destruct (hd true reach); [|done].
  by destruct (run_sql q (db w)) as [[v|e] d].
Qed.

Lemma run_createTable_cases (reach : list bool) (w w' : World) (reach' : list bool)
    (out : Outcome unit) :
  run createTable reach w = (w', reach', out) ->
  match out with
  | Fulfilled _ => db w' = ensured (db w)
  | Failed e =>
      db w' = db w /\ last_line w' = Some (console_error_line "Error creating table:" e)
  | Pending => w' = w
  end.
Proof.
  unfold createTable. rewrite run_frame.
  pose proof (settle_getConnection_cases (hd true reach) (this_pool w) w) as Hsettle.
  destruct (settle _ _ _) as [[[v|e] w1]|]; [| |by intros [= <- <- <-]].
  - destruct Hsettle as (-> & -> & _).
    rewrite run_try_catch. unfold mbind, Async_bind. rewrite run_bind, run_connection_query.
    rewrite run_sql_create. destruct (hd true (tl reach)); simpl.
    + by intros [= <- <- <-].
    + intros [= <- <- <-]. split; [done|last_printed].
  - subst w1. rewrite run_handler. intros [= <- <- <-]. split; [done|last_printed].
Qed.

Lemma run_checkTableExists_cases (reach : list bool) (w w' : World) (reach' : list bool)
    (out : Outcome unit) :
  run checkTableExists reach w = (w', reach', out) ->
  match out with
  | Fulfilled _ => db w' = ensured (db w)
  | Failed e =>
      db w' = db w /\
      last_line w' = Some (console_error_line "Error checking table existence:" e)
  | Pending => db w' = db w
  end.
Proof.
  unfold checkTableExists. rewrite run_frame.
  pose proof (settle_getConnection_cases (hd true reach) (this_pool w) w) as Hsettle.
  destruct (settle _ _ _) as [[[v|e] w1]|]; [| |by intros [= <- <- <-]].
  - destruct Hsettle as (-> & -> & _).
    rewrite run_try_catch. unfold mbind at 1, Async_bind at 1.
    rewrite run_bind, run_connection_query.
    destruct (hd true (tl reach)); [|intros [= <- <- <-]; split; [done|last_printed]].
    rewrite run_sql_show. cbn [fst snd db set_db set_pools].
    destruct (history (db w)) as [t|] eqn:Ht; cbn [no_rows].
    + simpl. intros [= <- <- <-]. simpl. by rewrite (ensured_present _ t).
    + destruct (run createTable _ _) as [[w3 reach3] out3] eqn:E.
      apply run_createTable_cases in E.
      destruct out3 as [[]|e|]; simpl; intros [= <- <- <-].
      * change (db w3 = ensured (db w)). rewrite E. unfold ensured. simpl. by rewrite Ht.
      * destruct E as [E _]. split; [exact E|last_printed].
      * by rewrite E.
  - subst w1. rewrite run_handler. intros [= <- <- <-]. split; [done|last_printed].
Qed.

(** X7. [init] never rejects, whatever the server does. A call that
    comes to its end is fulfilled, and either has printed "Database
    initialized and table checked." with the table in place (an existing
    table kept as it was), or has printed the error under
    "Initialization error:" and left the server as it was. *)
Theorem init_never_rejects (reach : list bool) (w w' : World) (reach' : list bool)
    (out : Outcome unit) :
  run init reach w = (w', reach', out) ->
  out <> Pending ->
  out = Fulfilled tt /\
  (last_line w' = Some (console_log_line "Database initialized and table checked.") /\
   db w' = ensured (db w)
   \/
   exists e, last_line w' = Some (console_error_line "Initialization error:" e) /\
             db w' = db w).
Proof.
  unfold init. rewrite run_try_catch. unfold mbind, Async_bind. rewrite run_bind.
  destruct (run checkTableExists reach w) as [[w1 reach1] out1] eqn:E.
  apply run_checkTableExists_cases in E.
  destruct out1 as [[]|e|]; simpl; intros [= <- <- <-] Hout; [| |done].
  - split; [done|]. left. split; [last_printed|done].
  - split; [done|]. right. exists e. split; [last_printed|]. by destruct E.
Qed.

Lemma init_never_rejects_witness :
  let w := world (boot example_credentials blank_server) in
  (run init [true; true; false] w).2 = Fulfilled tt.
Proof.
  intros w.
  exact (proj1 (init_never_rejects [true; true; false] w
                  (run init [true; true; false] w).1.1 []
                  (run init [true; true; false] w).2 eq_refl ltac:(discriminate))).
Defined.

Lemma run_frame_reachable {A : Type} (body : PoolConnection -> Async A)
    (handler : JsError -> Async A) (reach : list bool) (w : World) :
  available 1 w ->
  hd true reach = true ->
  run (with_connection body handler) reach w
  = match run (try_catch (body {| of_pool := this_pool w |}) handler) (tl reach) (taken w)
    with
    | (w', reach', Pending) => (w', reach', Pending)
    | (w', reach', out) => (given_back (this_pool w) w', reach', out)
    end.
Proof.
  intros (pl & Hpl & Hopen & Hroom) Hreach. rewrite run_frame, Hreach.
  rewrite (LoopFacts.settle_getConnection w (this_pool w) pl) by (done || lia).
  done.
Qed.

Lemma available_taken (k : nat) (w : World) (d : Database) :
  available (S k) w -> available k (set_db d (taken w)).
Proof.
  intros (pl & Hpl & Hopen & Hroom). exists (check_out pl). simpl.
  rewrite list_lookup_alter_eq, Hpl. simpl. repeat split; [done|lia].
Qed.

Lemma alter_check_in_check_out (ps : list Pool) (p : nat) :
  alter check_in p (alter check_out p ps) = ps.
Proof. rewrite list_alter_alter_eq. apply list_alter_id. apply check_in_check_out. Qed.

Lemma run_createTable_reachable (w : World) :
  available 1 w ->
  run createTable [] w
  = (given_back (this_pool w)
       (print (console_log_line "Table history ensured.")
          (set_db (ensured (db w)) (taken w))), [], Fulfilled tt).
Proof.
  intros Hw. unfold createTable. rewrite run_frame_reachable by done.
  rewrite run_try_catch. unfold mbind, Async_bind.
  rewrite run_bind, run_connection_query, run_sql_create. reflexivity.
Qed.

Lemma run_init_reachable (w : World) :
  available 2 w ->
  exists w',
    run init [] w = (w', [], Fulfilled tt) /\
    db w' = ensured (db w) /\
    pools w' = pools w /\
    this_pool w' = this_pool w /\
    last_line w' = Some (console_log_line "Database initialized and table checked.").
Proof.
  intros Hw. unfold init. rewrite run_try_catch. unfold mbind at 1, Async_bind at 1.
  rewrite run_bind. unfold checkTableExists.
  rewrite run_frame_reachable by (done || by apply available_less).
  rewrite run_try_catch. unfold mbind at 1, Async_bind at 1.
  rewrite run_bind, run_connection_query. cbn [hd tl]. rewrite run_sql_show.
  cbn [fst snd]. change (db (taken w)) with (db w).
  destruct (history (db w)) as [t|] eqn:Ht; cbn [no_rows].
  - simpl. eexists. split; [reflexivity|]. simpl. repeat split.
    + by rewrite (ensured_present _ t).
    + apply alter_check_in_check_out.
    + last_printed.
  - rewrite run_createTable_reachable by (by apply available_taken).
    simpl. eexists. split; [reflexivity|]. simpl. repeat split.
    + by rewrite !alter_check_in_check_out.
    + last_printed.
Qed.

(** X8. With the server reachable and two connections to give, [init]
    ends with the table in place and the pool as it was, and running it
    again changes nothing on the server: a table that is there is never
    dropped, emptied or re-created. *)
Theorem bootstrap_is_idempotent (w : World) :
  available 2 w ->
  exists w' w'',
    run init [] w = (w', [], Fulfilled tt) /\
    db w' = ensured (db w) /\
    pools w' = pools w /\
    run init [] w' = (w'', [], Fulfilled tt) /\
    db w'' = db w'.
Proof.
  intros Hw.
  destruct (run_init_reachable w Hw) as (w' & Hrun & Hdb & Hpools & Hpool & _).
  destruct (run_init_reachable w') as (w'' & Hrun' & Hdb' & _).
  { by apply (available_same 2 w). }
  exists w', w''. repeat split; try done.
  by rewrite Hdb', Hdb, ensured_ensured.
Qed.

Lemma bootstrap_is_idempotent_witness :
  let w := world (boot example_credentials stocked_server) in
  exists w', run init [] w = (w', [], Fulfilled tt) /\ db w' = db w.
Proof.
  intros w.
  destruct (bootstrap_is_idempotent w) as (w' & w'' & Hrun & Hdb & _).
  - exists (fresh_pool example_credentials). repeat split; simpl; lia.
  - exists w'. split; [exact Hrun|]. rewrite Hdb. reflexivity.
Defined.

(** X9. [checkTableExists] keeps its own connection while [createTable]
    takes a second one. With the table missing and exactly one
    connection left in a pool that makes callers wait, the bootstrap
    takes that last connection, finds no table, and then waits for a
    connection that only another caller can give back: the call cannot
    finish on its own, and holds the last connection while it waits. With
    the table in place the one connection is enough. *)
Theorem bootstrap_needs_two_connections (reach : list bool) (w : World) :
  one_connection_left w ->
  match history (db w) with
  | None =>
      exists w',
        run init (true :: true :: true :: reach) w = (w', true :: reach, Pending) /\
        in_use w' (this_pool w) = S (in_use w (this_pool w)) /\
        db w' = db w
  | Some _ =>
      exists w',
        run init (true :: true :: true :: reach) w = (w', true :: reach, Fulfilled tt) /\
        in_use w' (this_pool w) = in_use w (this_pool w) /\
        db w' = db w
  end.
Proof.
  intros (pl & Hpl & Hopen & Hwait & Hleft).
  assert (available 1 w) as Hw by (exists pl; repeat split; [done..|lia]).
  assert (run checkTableExists (true :: true :: true :: reach) w
          = match history (db w) with
            | Some _ => (given_back (this_pool w) (set_db (db w) (taken w)),
                         true :: reach, Fulfilled tt)
            | None => (set_db (db w) (taken w), true :: reach, Pending)
            end) as Hrun.
  { unfold checkTableExists. rewrite run_frame_reachable by done.
    rewrite run_try_catch. unfold mbind at 1, Async_bind at 1.
    rewrite run_bind, run_connection_query. cbn [hd tl]. rewrite run_sql_show.
    cbn [fst snd]. change (db (taken w)) with (db w).
    destruct (history (db w)) as [t|] eqn:Ht; cbn [no_rows]; [done|].
    unfold createTable. rewrite run_frame. cbn [hd tl].
    assert (settle true (PoolGetConnection (this_pool (set_db (db w) (taken w))))
              (set_db (db w) (taken w)) = None) as ->; [|done].
    unfold settle. simpl. rewrite list_lookup_alter_eq, Hpl. simpl. rewrite Hopen.
    rewrite Hleft, Nat.ltb_irrefl. by rewrite Hwait. }
  unfold init. rewrite run_try_catch. unfold mbind, Async_bind. rewrite run_bind, Hrun.
  destruct (history (db w)) as [t|]; simpl.
  - eexists. split; [reflexivity|]. split; [|done].
    rewrite in_use_print. apply in_use_given_back_taken. eauto.
  - eexists. split; [reflexivity|]. split; [|done].
    rewrite in_use_set_db. unfold taken. rewrite in_use_check_out by eauto.
    by rewrite decide_True.
Qed.

Lemma bootstrap_needs_two_connections_witness :
  let w := set_pools (alter (set_checked_out 9) 0)
             (world (boot example_credentials blank_server)) in
  exists w', run init [true; true; true] w = (w', [true], Pending).
Proof.
  intros w.
  assert (one_connection_left w) as Hw.
  { exists (set_checked_out 9 (fresh_pool example_credentials)). by repeat split. }
  pose proof (bootstrap_needs_two_connections [] w Hw) as H.
  change (history (db w)) with (@None Table) in H. cbv iota in H.
  destruct H as (w' & Hrun & _). exists w'. exact Hrun.
Defined.

End AdapterFacts.

(* ===================================================================== *)
(** * More about the adapter's executions *)
(* ===================================================================== *)

Module ScheduleFacts.
Import Behaviour LoopFacts.

#[local] Arguments settle : simpl never.
#[local] Arguments exec : simpl never.
#[local] Arguments turn : simpl never.
#[local] Arguments close_pool : simpl never.
#[local] Arguments release_connection : simpl never.

Lemma lookup_after (ts more : list Task) (i j : nat) (t : Task) :
  i = (length ts + j)%nat -> more !! j = Some t -> (ts ++ more) !! i = Some t.
Proof. intros -> H. by rewrite lookup_app_r, Nat.add_comm, Nat.add_sub by lia. Qed.

Lemma insert_after (ts more : list Task) (i j : nat) (t : Task) :
  i = (length ts + j)%nat -> <[i := t]> (ts ++ more) = ts ++ <[j := t]> more.
Proof. intros ->. apply insert_app_r. Qed.

(** The request of the [j]-th task after those of the initial state
    settles. *)
Ltac settle_nth j settled :=
  rewrite <- ?(assoc_L (++)); cbn [app];
  rewrite exec_cons; erewrite turn_settle;
    [|cbn [tasks]; apply (lookup_after _ _ _ j);
      [rewrite ?length_app; simpl; lia|reflexivity]
     |settled];
  simpl; rewrite ?app_nil_r;
  rewrite ?(insert_after _ _ _ j) by (rewrite ?length_app; simpl; lia); simpl.




(** X11. [destroy] disarms the interval (no probe can start any more),
    ends the pool in use and prints its message at once, without waiting
    for the pool to end and without touching the server. After it every
    call of the adapter is refused by the ended pool: it prints the
    error twice and rejects with it. *)
Theorem destroy_stops_the_adapter (l : Loop) (op : Operation) (reach : list bool) :
  let w := world l in
  let l' := call_sync destroy l in
  let w' := world l' in
  turn l Call_destroy = Some l' /\
  turn l' Tick = None /\
  pools w' = alter set_closed (this_pool w) (pools w) /\
  this_pool w' = this_pool w /\
  db w' = db w /\
  console w' = console w ++
    [console_log_line
       "MysqlAdapter destroyed: Reconnection check stopped and connection pool closed."] /\
  (exists k, tasks l' = tasks l ++
     [{| name := task_destroy; status := Waiting (PoolEnd (this_pool w)) k |}]) /\
  run (perform op) reach w'
  = (print (console_error_line (error_label op) PoolIsClosed)
       (print (acquire_error PoolIsClosed) w'), tl reach, Failed PoolIsClosed).
Proof.
  destruct l as [[ps d p c armed con] ts tr]. simpl.
  repeat split.
  - by eexists.
  - apply AdapterFacts.run_perform_refused.
    by apply settle_after_close with (ps := ps).
Qed.



(** X13. The recreation reports success whatever its bootstrap did: [init]
    never rejects, so the callback after it always runs. When the pool
    has been replaced and the new pool cannot reach the server either,
    the console shows the three errors of the failed bootstrap and then
    "Reconnected to database successfully."; the server has not been
    touched and nothing is left running. *)
Theorem reconnection_is_reported_even_when_it_failed (l : Loop) (reachable : bool)
    (e : JsError) :
  reconnectInterval (world l) = true ->
  probe_rejected reachable e l ->
  let n := length (tasks l) in
  let w := world l in
  exists l',
    exec l [Tick; Settle n reachable; Settle (S n) true; Settle (S (S n)) false] = Some l' /\
    console (world l') = console w ++
      [console_error_line "Database connection is down. Attempting to reconnect..." e;
       console_log_line "Recreating connection pool...";
       acquire_error ConnectionLost;
       console_error_line "Error checking table existence:" ConnectionLost;
       console_error_line "Initialization error:" ConnectionLost;
       console_log_line "Reconnected to database successfully."] /\
    db (world l') = db w /\
    tasks l' = tasks l ++
      [{| name := task_checkConnection; status := Returned Void |};
       {| name := task_recreatePool; status := Returned Void |};
       {| name := task_init; status := Returned Void |}].
Proof.
  destruct l as [[ps d p c armed con] ts tr]. unfold probe_rejected. simpl.
  intros -> Hprobe.
  eexists. split.
  { rewrite exec_cons. unfold turn at 1. cbn [world reconnectInterval].
    unfold call_async. simpl.
    settle_step ltac:(by apply lookup_task) ltac:(exact Hprobe).
    settle_step ltac:(find_task) ltac:(reflexivity).
    settle_step ltac:(find_task)
      ltac:(unfold settle; simpl; rewrite lookup_last by (by rewrite length_alter);
            reflexivity).
    reflexivity. }
  simpl. repeat split; by flatten.
Qed.

Lemma reconnection_is_reported_even_when_it_failed_witness :
  exists l',
    exec (boot example_credentials blank_server)
      [Tick; Settle 1 false; Settle 2 true; Settle 3 false] = Some l' /\
    last_line (world l')
    = Some (console_log_line "Reconnected to database successfully.") /\
    history (db (world l')) = None.
Proof.
  destruct (reconnection_is_reported_even_when_it_failed
              (boot example_credentials blank_server) false ConnectionLost
              eq_refl eq_refl) as (l' & Hexec & Hconsole & Hdb & _).
  exists l'. split; [exact Hexec|]. split.
  - unfold last_line. rewrite Hconsole. reflexivity.
  - rewrite Hdb. reflexivity.
Defined.



(** X15. Two [save]s that are in flight together both land: each call
    takes its own connection, the two rows get consecutive ids in the
    order in which the INSERTs reach the server, whichever call was made
    first, and both connections are back in the pool at the end. *)
Theorem concurrent_saves_land_in_arrival_order (l : Loop) (ctx1 ctx2 : Ctx)
    (text1 text2 : string) (t : Table) :
  available 2 (world l) ->
  history (db (world l)) = Some t ->
  JSON_stringify (ctx_options ctx1) = Some text1 ->
  JSON_stringify (ctx_options ctx2) = Some text2 ->
  let n := length (tasks l) in
  let w := world l in
  let row2 := inserted ctx2 text2 (db w) t in
  let t' := {| rows := rows t ++ [row2]; auto_increment := (auto_increment t + 1)%Z |} in
  let row1 := inserted ctx1 text1 (db w) t' in
  exists l',
    exec l [Call_save ctx1; Call_save ctx2; Settle n true; Settle (S n) true;
            Settle (S n) true; Settle n true] = Some l' /\
    history (db (world l'))
    = Some {| rows := rows t ++ [row2; row1];
              auto_increment := (auto_increment t + 1 + 1)%Z |} /\
    pools (world l') = pools w /\
    tasks l' = tasks l ++ [{| name := task_save; status := Returned Void |};
                           {| name := task_save; status := Returned Void |}].
Proof.
  destruct l as [[ps d p c armed con] ts tr]. simpl.
  intros (pl & Hpl & Hopen & Hroom) Ht Htext1 Htext2. simpl in *.
  eexists. split.
  { rewrite exec_cons. unfold turn at 1. unfold call_async. simpl.
    rewrite exec_cons. unfold turn at 1. unfold call_async. simpl.
    settle_nth 0%nat ltac:(apply settle_getConnection with (pl := pl); [done|done|lia]).
    settle_nth 1%nat
      ltac:(apply settle_getConnection with (pl := check_out pl);
            [simpl; by rewrite list_lookup_alter_eq, Hpl|done|simpl; lia]).
    settle_nth 1%nat ltac:(unfold settle; simpl; rewrite Ht, Htext2; reflexivity).
    settle_nth 0%nat ltac:(unfold settle; simpl; rewrite Htext1; reflexivity).
    reflexivity. }
  simpl. unfold release_connection. simpl. repeat split.
  - by rewrite <- (assoc_L (++)).
  - rewrite !list_alter_alter_eq. apply list_alter_id. intros pl'. by destruct pl'.
Qed.

Lemma concurrent_saves_land_in_arrival_order_witness :
  exists l',
    exec (boot example_credentials ready_server)
      [Call_save example_ctx; Call_save example_ctx; Settle 1 true; Settle 2 true;
       Settle 2 true; Settle 1 true] = Some l' /\
    pools (world l') = pools (world (boot example_credentials ready_server)).
Proof.
  pose (text := default EmptyString (JSON_stringify (ctx_options example_ctx))).
  destruct (concurrent_saves_land_in_arrival_order
              (boot example_credentials ready_server) example_ctx example_ctx
              text text {| rows := []; auto_increment := 1 |})
    as (l' & Hexec & _ & Hpools & _).
  - exists (fresh_pool example_credentials). repeat split; simpl; lia.
  - reflexivity.
  - reflexivity.
  - reflexivity.
  - exists l'. split; [exact Hexec|exact Hpools].
Defined.

End ScheduleFacts.

(* ===================================================================== *)
(** * More about the callbacks and the handler *)
(* ===================================================================== *)

Module FlowFacts.
Import App Behaviour.

(** ** [includes] after [toLocaleLowerCase] *)

Lemma chars_append (a b : string) : chars (a +:+ b) = chars a ++ chars b.
Proof. induction a as [|c a IH]; simpl; [done|]. by rewrite <- IH. Qed.

Lemma chars_of_list (l : list ascii) : chars (string_of_list_ascii l) = l.
Proof. apply list_ascii_of_string_of_list_ascii. Qed.

Lemma string_of_app (a b : list ascii) :
  string_of_list_ascii (a ++ b) = string_of_list_ascii a +:+ string_of_list_ascii b.
Proof. induction a as [|c a IH]; simpl; [done|]. by rewrite IH. Qed.

Lemma starts_with_app (p r : list ascii) : starts_with p (p ++ r) = true.
Proof. induction p as [|c p IH]; simpl; [done|]. by rewrite Ascii.eqb_refl. Qed.

Lemma starts_with_true (p s : list ascii) :
  starts_with p s = true -> exists r, s = p ++ r.
Proof.
  revert s. induction p as [|c p IH]; intros s; simpl; [by exists s|].
  destruct s as [|c' s]; [done|].
  intros [Hc Hp]%andb_true_iff. apply Ascii.eqb_eq in Hc as ->.
  destruct (IH s Hp) as [r ->]. by exists r.
Qed.

Lemma includes_chars_app (pre p post : list ascii) :
  includes_chars (pre ++ p ++ post) p = true.
Proof.
  induction pre as [|c pre IH].
  - pose proof (starts_with_app p post) as H. simpl.
    destruct (p ++ post); simpl; by rewrite H.
  - simpl. rewrite IH. apply orb_true_r.
Qed.

Lemma includes_chars_true (s p : list ascii) :
  includes_chars s p = true -> exists pre post, s = pre ++ p ++ post.
Proof.
  induction s as [|c s IH]; simpl.
  - rewrite orb_false_r. intros [r Hr]%starts_with_true. by exists [], r.
  - intros [[r Hr]%starts_with_true|H]%orb_true_iff.
    + by exists [], r.
    + destruct (IH H) as (pre & post & ->). by exists (c :: pre), post.
Qed.

Lemma includes_lower (body word : string) :
  includes (toLocaleLowerCase body) word = true <-> mentions body word.
Proof.
  unfold includes, toLocaleLowerCase, mentions. rewrite chars_of_list. split.
  - intros (pre' & post' & H)%includes_chars_true.
    apply List.map_eq_app in H as (pre & rest & Hbody & Hpre & H).
    apply List.map_eq_app in H as (w & post & -> & Hw & Hpost).
    exists (string_of_list_ascii pre), (string_of_list_ascii w), (string_of_list_ascii post).
    split.
    + rewrite <- (string_of_list_ascii_of_string body). fold (chars body). rewrite Hbody.
      by rewrite !string_of_app.
    + unfold toLocaleLowerCase. rewrite chars_of_list, Hw.
      apply string_of_list_ascii_of_string.
  - intros (pre & w & post & -> & Hw). rewrite !chars_append, !List.map_app.
    rewrite <- Hw. unfold toLocaleLowerCase. rewrite chars_of_list.
    apply includes_chars_app.
Qed.

Lemma mentions_dec (body word : string) : mentions body word \/ ~ mentions body word.
Proof.
  rewrite <- includes_lower. destruct (includes _ _); [by left|by right].
Qed.

(** X16. The capture step of [welcomeFlow] lets a reply through exactly
    when it contains "doc" somewhere, in any letter case; any other
    reply is turned back with [fallBack('You should type *doc*')]. Neither
    case changes the state or sends anything itself. *)
Theorem welcome_reply_must_mention_doc :
  exists cb,
    callback_at welcomeFlow 1 = Some cb /\
    forall ctx st,
      (mentions (body ctx) "doc" ->
       cb ctx st = {| state := st; sent := []; control := Advance |}) /\
      (~ mentions (body ctx) "doc" ->
       cb ctx st = {| state := st; sent := [];
                      control := fallBack "You should type *doc*" |}).
Proof.
  eexists. split; [reflexivity|]. intros ctx st. cbv beta.
  rewrite <- includes_lower. split.
  - by intros ->.
  - by intros ->%not_true_is_false.
Qed.

Lemma welcome_reply_must_mention_doc_witness :
  exists cb,
    callback_at welcomeFlow 1 = Some cb /\
    cb {| body := "Where are the DOCS?"; from := "5491100000000" |} ∅
    = {| state := ∅; sent := []; control := Advance |}.
Proof.
  destruct welcome_reply_must_mention_doc as (cb & Hcb & H).
  exists cb. split; [exact Hcb|]. apply H.
  exists "Where are the ", "DOC", "S?". split; reflexivity.
Defined.

(** X17. The capture step of [discordFlow] goes to [registerFlow] exactly
    when the reply contains "yes" somewhere, in any letter case (so does
    "YES", and so does "eyes"), and sends nothing itself; on any other
    reply it sends "Thanks!" and the flow goes on. *)
Theorem discord_reply_yes_registers :
  exists cb,
    callback_at discordFlow 0 = Some cb /\
    forall ctx st,
      (mentions (body ctx) "yes" ->
       cb ctx st = {| state := st; sent := []; control := gotoFlow registerFlow |}) /\
      (~ mentions (body ctx) "yes" ->
       cb ctx st = {| state := st; sent := ["Thanks!"]; control := Advance |}).
Proof.
  eexists. split; [reflexivity|]. intros ctx st. cbv beta.
  rewrite <- includes_lower. split.
  - by intros ->.
  - by intros ->%not_true_is_false.
Qed.

Lemma discord_reply_yes_registers_witness :
  exists cb,
    callback_at discordFlow 0 = Some cb /\
    cb {| body := "Yes, please"; from := "5491100000000" |} ∅
    = {| state := ∅; sent := []; control := gotoFlow registerFlow |}.
Proof.
  destruct discord_reply_yes_registers as (cb & Hcb & H).
  exists cb. split; [exact Hcb|]. apply H.
  exists EmptyString, "Yes", ", please". split; reflexivity.
Defined.

(** X18. The three callbacks of [registerFlow], called in order on the
    replies, store the first reply as [name] and the second as [age],
    whatever the state held under those keys before, keep every other
    key, and send one message, made of the two replies as they were
    typed. *)
Theorem registration_uses_the_replies :
  exists on_name on_age on_done,
    callback_at registerFlow 0 = Some on_name /\
    callback_at registerFlow 1 = Some on_age /\
    callback_at registerFlow 2 = Some on_done /\
    forall ctx1 ctx2 ctx3 st,
      let t1 := on_name ctx1 st in
      let t2 := on_age ctx2 (state t1) in
      let t3 := on_done ctx3 (state t2) in
      sent t1 = [] /\ sent t2 = [] /\
      sent t3 = [thanks (body ctx1) (body ctx2)] /\
      control t1 = Advance /\ control t2 = Advance /\ control t3 = Advance /\
      state t3 = <["age" := body ctx2]> (<["name" := body ctx1]> st) /\
      forall key, key <> "name" -> key <> "age" -> state t3 !! key = st !! key.
Proof.
  eexists _, _, _. split; [reflexivity|]. split; [reflexivity|]. split; [reflexivity|].
  intros ctx1 ctx2 ctx3 st. cbv zeta beta. cbn [state sent control].
  repeat split.
  - rewrite lookup_insert_ne by done. rewrite !lookup_insert_eq. done.
  - intros key Hname Hage. by rewrite !lookup_insert_ne.
Qed.

(** ** The body of the [/v1/blacklist] response *)

Lemma omap_member_own (number intent : JsValue) :
  omap member [("status", JsString "ok"); ("number", number); ("intent", intent)]
  = omap member (("status", JsString "ok") :: own "number" number ++ own "intent" intent).
Proof. by destruct number, intent. Qed.

Lemma JSON_stringify_own (number intent : JsValue) :
  JSON_stringify (JsObject [("status", JsString "ok"); ("number", number); ("intent", intent)])
  = JSON_stringify (JsObject (("status", JsString "ok") ::
                              own "number" number ++ own "intent" intent)).
Proof.
  unfold JSON_stringify. by rewrite !JsonFacts.serialize_object, omap_member_own.
Qed.

Lemma own_defined (k : string) (v : JsValue) :
  json_serializable v = true -> own k v = [(k, v)].
Proof. by destruct v. Qed.

Lemma own_serializable (number intent : JsValue) :
  optional number -> optional intent ->
  json_serializable (JsObject (("status", JsString "ok") ::
                               own "number" number ++ own "intent" intent)) = true.
Proof.
  intros [->|Hn] [->|Hi]; rewrite ?(own_defined _ _ Hn), ?(own_defined _ _ Hi); simpl;
    by rewrite ?Hn, ?Hi.
Qed.

(** X19. The body of the [/v1/blacklist] response is JSON text that
    parses back to the object [{status: "ok", number, intent}] of the
    request, whatever the intent and whatever implements the blacklist;
    a [number] or [intent] that the request did not carry ([undefined])
    is left out of the echo. *)
Theorem blacklist_response_echoes_the_request {B : Type} `{BlackList B}
    (number intent : JsValue) (blacklist : B) :
  optional number ->
  optional intent ->
  JSON_parse (payload (blacklist_handler number intent blacklist).2)
  = Some (JsObject (("status", JsString "ok") ::
                    own "number" number ++ own "intent" intent)).
Proof.
  intros Hn Hi. unfold blacklist_handler. cbn [snd payload].
  rewrite JSON_stringify_own.
  destruct (JsonFacts.JSON_parse_stringify _ (own_serializable number intent Hn Hi))
    as (text & -> & Hparse).
  done.
Qed.

Lemma blacklist_response_echoes_the_request_witness :
  JSON_parse (payload (blacklist_handler JsUndefined (JsString "add")
                         [JsString "34600000000"]).2)
  = Some (JsObject [("status", JsString "ok"); ("intent", JsString "add")]).
Proof.
  apply (blacklist_response_echoes_the_request JsUndefined (JsString "add")
           [JsString "34600000000"]).
  - by left.
  - by right.
Defined.

End FlowFacts.

(* ===================================================================== *)
(** * What holds in every execution *)
(* ===================================================================== *)

Module InvariantFacts.
Import Behaviour LoopFacts.

#[local] Arguments settle : simpl never.

Section Keeps.
#[local] Set Default Proof Using "All".
Variable R : World -> World -> Prop.
Hypothesis R_refl : forall w, R w w.
Hypothesis R_trans : forall w1 w2 w3, R w1 w2 -> R w2 w3 -> R w1 w3.
Hypothesis R_settle :
  forall reachable rq w r w', settle reachable rq w = Some (r, w') -> R w w'.
Hypothesis R_print : forall line w, R w (print line w).
Hypothesis R_pools : forall f w, R w (set_pools f w).
Hypothesis R_this_pool : forall p w, R w (set_this_pool p w).
Hypothesis R_disarm : forall w, R w (set_reconnectInterval false w).

(** ** The combinators *)

Lemma keeps_bind {A B : Type} (p : Async A) (f : A -> Async B) :
  keeps R p -> (forall a, keeps R (f a)) -> keeps R (bind p f).
Proof.
  intros Hp. revert f.
  induction Hp as [A a|A e|A rq k _ IH|A C g k Hg _ IH|A n q k Hq _ _ IH];
    intros f Hf; simpl.
  - apply Hf.
  - constructor.
  - constructor. intros r. by apply IH.
  - constructor; [done|]. intros b. by apply IH.
  - constructor; [done|]. by apply IH.
Qed.

Lemma keeps_mbind {A B : Type} (p : Async A) (f : A -> Async B) :
  keeps R p -> (forall a, keeps R (f a)) -> keeps R (p ≫= f).
Proof. apply keeps_bind. Qed.

Lemma keeps_try_catch {A : Type} (p : Async A) (h : JsError -> Async A) :
  keeps R p -> (forall e, keeps R (h e)) -> keeps R (try_catch p h).
Proof.
  intros Hp. revert h.
  induction Hp as [A a|A e|A rq k _ IH|A C g k Hg _ IH|A n q k Hq _ _ IH];
    intros h Hh; simpl.
  - constructor.
  - apply Hh.
  - constructor. intros r. by apply IH.
  - constructor; [done|]. intros b. by apply IH.
  - constructor; [done|]. by apply IH.
Qed.

Lemma keeps_finally {A : Type} (p : Async A) (f : Async unit) :
  keeps R p -> keeps R f -> keeps R (finally p f).
Proof.
  intros Hp Hf.
  induction Hp as [A a|A e|A rq k _ IH|A C g k Hg _ IH|A n q k Hq _ _ IH]; simpl.
  - apply keeps_bind; [done|]. intros _. constructor.
  - apply keeps_bind; [done|]. intros _. constructor.
  - constructor. intros r. by apply IH.
  - constructor; [done|]. intros b. by apply IH.
  - constructor; [done|]. by apply IH.
Qed.

Lemma keeps_read {B : Type} (g : World -> B) : keeps R (read g).
Proof. constructor; [intros w; apply R_refl|]. intros b. constructor. Qed.

Lemma keeps_write (g : World -> World) : (forall w, R w (g w)) -> keeps R (write g).
Proof. intros Hg. constructor; [done|]. intros b. constructor. Qed.

Lemma keeps_console_log (msg : string) : keeps R (console_log msg).
Proof. apply keeps_write. intros w. apply R_print. Qed.

Lemma keeps_console_error (msg : string) (e : JsError) : keeps R (console_error msg e).
Proof. apply keeps_write. intros w. apply R_print. Qed.

Lemma keeps_void (p : Async unit) : keeps R p -> keeps R (void p).
Proof. intros Hp. apply keeps_bind; [done|]. intros _. constructor. Qed.

(** ** The driver and the adapter *)

Lemma keeps_pool_getConnection (p : nat) : keeps R (pool_getConnection p).
Proof. constructor. intros [[]|]; constructor. Qed.

Lemma keeps_connection_query (c : PoolConnection) (q : Sql) : keeps R (connection_query c q).
Proof. constructor. intros []; constructor. Qed.

Lemma keeps_connection_execute (c : PoolConnection) (q : Sql) :
  keeps R (connection_execute c q).
Proof. constructor. intros []; constructor. Qed.

Lemma keeps_connection_release (c : PoolConnection) : keeps R (connection_release c).
Proof. apply keeps_write. intros w. apply R_pools. Qed.

Lemma keeps_pool_end (p : nat) : keeps R (pool_end p).
Proof.
  apply keeps_mbind; [apply keeps_write; intros w; apply R_pools|].
  intros _. constructor. intros []; constructor.
Qed.

Lemma keeps_handler {A : Type} (msg : string) (e : JsError) :
  keeps R (console_error msg e;; @Throw A e).
Proof. apply keeps_mbind; [apply keeps_console_error|]. intros _. constructor. Qed.

Lemma keeps_getConnection : keeps R getConnection.
Proof.
  apply keeps_try_catch; [|intros e; apply keeps_handler].
  apply keeps_mbind; [apply keeps_read|]. intros p.
  apply keeps_mbind; [apply keeps_pool_getConnection|]. intros c. constructor.
Qed.

Lemma keeps_with_connection {A : Type} (body : PoolConnection -> Async A)
    (handler : JsError -> Async A) :
  (forall c, keeps R (body c)) -> (forall e, keeps R (handler e)) ->
  keeps R (with_connection body handler).
Proof.
  intros Hbody Hhandler. apply keeps_mbind.
  - apply keeps_try_catch; [|intros e; constructor].
    apply keeps_mbind; [apply keeps_getConnection|]. intros c. constructor.
  - intros [e|c]; [apply Hhandler|].
    apply keeps_finally; [|apply keeps_connection_release].
    by apply keeps_try_catch.
Qed.

Lemma keeps_getPrevByNumber (from : string) : keeps R (getPrevByNumber from).
Proof.
  apply keeps_with_connection; [|intros e; apply keeps_handler].
  intros c. apply keeps_mbind; [apply keeps_connection_query|].
  intros rows. destruct (first_row rows) as [[row|]|]; try constructor.
  destruct (JSON_parse _); constructor.
Qed.

Lemma keeps_save (ctx : Ctx) : keeps R (save ctx).
Proof.
  apply keeps_with_connection; [|intros e; apply keeps_handler].
  intros c. apply keeps_mbind; [apply keeps_connection_execute|]. intros _. constructor.
Qed.

Lemma keeps_createTable : keeps R createTable.
Proof.
  apply keeps_with_connection; [|intros e; apply keeps_handler].
  intros c. apply keeps_mbind; [apply keeps_connection_query|].
  intros _. apply keeps_console_log.
Qed.

Lemma keeps_checkTableExists : keeps R checkTableExists.
Proof.
  apply keeps_with_connection; [|intros e; apply keeps_handler].
  intros c. apply keeps_mbind; [apply keeps_connection_query|].
  intros rows. destruct (no_rows rows); [apply keeps_createTable|constructor].
Qed.

Lemma keeps_init : keeps R init.
Proof.
  apply keeps_try_catch; [|intros e; apply keeps_console_error].
  apply keeps_mbind; [apply keeps_checkTableExists|]. intros _. apply keeps_console_log.
Qed.

Lemma keeps_recreatePool_chain (p : nat) : keeps R (recreatePool_chain p).
Proof.
  apply keeps_try_catch; [|intros e; apply keeps_console_error].
  apply keeps_mbind; [apply keeps_pool_end|]. intros _.
  apply keeps_mbind; [apply keeps_read|]. intros credentials.
  apply keeps_mbind.
  { constructor; [intros w; apply R_pools|]. intros b. constructor. }
  intros fresh. apply keeps_mbind; [apply keeps_write; intros w; apply R_this_pool|].
  intros _. constructor; [|constructor].
  apply keeps_mbind; [apply keeps_init|]. intros _. apply keeps_console_log.
Qed.

Lemma keeps_recreatePool : keeps R recreatePool.
Proof.
  apply keeps_mbind; [apply keeps_console_log|]. intros _.
  apply keeps_mbind; [apply keeps_read|]. intros p.
  constructor; [apply keeps_recreatePool_chain|constructor].
Qed.

Lemma keeps_checkConnection : keeps R checkConnection.
Proof.
  apply keeps_try_catch.
  - apply keeps_mbind; [apply keeps_read|]. intros p.
    apply keeps_mbind; [apply keeps_pool_getConnection|]. intros c.
    apply keeps_mbind; [apply keeps_connection_release|]. intros _.
    apply keeps_console_log.
  - intros e. apply keeps_mbind; [apply keeps_console_error|]. intros _.
    apply keeps_recreatePool.
Qed.

Lemma keeps_destroy : keeps R destroy.
Proof.
  apply keeps_mbind; [apply keeps_write; intros w; apply R_disarm|]. intros _.
  apply keeps_mbind; [apply keeps_read|]. intros p.
  constructor; [apply keeps_pool_end|apply keeps_console_log].
Qed.

(** ** Turns of the loop *)

Lemma advance_keeps {A : Type} (p : Async A) :
  keeps R p ->
  forall w detached w' detached' st,
    Async.advance p w detached = (w', detached', st) ->
    Forall (fun d => status_keeps R d.2) detached ->
    R w w' /\ Forall (fun d => status_keeps R d.2) detached' /\ status_keeps R st.
Proof.
  induction 1 as [A a|A e|A rq k Hk _|A C g k Hg _ IH|A n q k _ IHq _ IHk];
    intros w detached w' detached' st; simpl.
  - by intros [= <- <- <-].
  - by intros [= <- <- <-].
  - by intros [= <- <- <-].
  - specialize (Hg w). destruct (g w) as [b w1]. intros Hrun Hdet.
    destruct (IH b _ _ _ _ _ Hrun Hdet) as (HR & H). split; [|done].
    by apply (R_trans _ w1).
  - destruct (Async.advance q w detached) as [[w1 detached1] st1] eqn:Eq.
    intros Hrun Hdet. destruct (IHq _ _ _ _ _ Eq Hdet) as (HR1 & Hdet1 & Hst1).
    destruct (IHk _ _ _ _ _ Hrun) as (HR2 & H).
    { apply Forall_app. split; [done|]. by apply Forall_singleton. }
    split; [|done]. by apply (R_trans _ w1).
Qed.

Lemma status_keeps_void (st : Status unit) :
  status_keeps R st -> status_keeps R (void_status st).
Proof. destruct st as [a|e|rq k]; simpl; [done..|]. intros Hk r. by apply keeps_void. Qed.

Lemma enroll_keeps (detached : list (TaskName * Status unit)) (i : nat) :
  Forall (fun d => status_keeps R d.2) detached ->
  Forall (fun t => status_keeps R (status t)) (enroll i detached).1.
Proof.
  revert i. induction detached as [|[n st] detached IH]; intros i; simpl; [done|].
  intros [Hst Hdet]%Forall_cons. specialize (IH (S i) Hdet).
  destruct (enroll (S i) detached) as [ts es]. simpl in *.
  apply Forall_cons. split; [|done]. by apply status_keeps_void.
Qed.

Lemma call_async_keeps (n : TaskName) (p : Async Value) (l : Loop) :
  keeps R p -> tasks_keep R l ->
  R (world l) (world (call_async n p l)) /\ tasks_keep R (call_async n p l).
Proof.
  intros Hp Hl. unfold call_async, tasks_keep.
  destruct (Async.advance p (world l) []) as [[w detached] st] eqn:E.
  destruct (advance_keeps p Hp _ _ _ _ _ E) as (HR & Hdet & Hst); [done|].
  pose proof (enroll_keeps detached (S (length (tasks l))) Hdet) as Hts.
  destruct (enroll _ detached) as [ts es]. simpl in *. split; [done|].
  apply Forall_app. split; [done|]. by apply Forall_cons.
Qed.

Lemma call_sync_keeps (p : Async unit) (l : Loop) :
  keeps R p -> tasks_keep R l ->
  R (world l) (world (call_sync p l)) /\ tasks_keep R (call_sync p l).
Proof.
  intros Hp Hl. unfold call_sync, tasks_keep.
  destruct (Async.advance p (world l) []) as [[w detached] st] eqn:E.
  destruct (advance_keeps p Hp _ _ _ _ _ E) as (HR & Hdet & Hst); [done|].
  pose proof (enroll_keeps detached (length (tasks l)) Hdet) as Hts.
  destruct (enroll _ detached) as [ts es]. simpl in *. split; [done|].
  apply Forall_app. by split.
Qed.

Lemma turn_keeps (l l' : Loop) (e : Event) :
  tasks_keep R l -> turn l e = Some l' -> R (world l) (world l') /\ tasks_keep R l'.
Proof.
  intros Hl. destruct e as [ctx|from| | |i reachable]; unfold turn.
  - intros H. apply (inj Some) in H as <-.
    apply (call_async_keeps _ (void (save ctx))); [|done]. apply keeps_void, keeps_save.
  - intros H. apply (inj Some) in H as <-.
    apply (call_async_keeps _ (prev ← getPrevByNumber from; Return (PrevValue prev)));
      [|done].
    apply keeps_mbind; [apply keeps_getPrevByNumber|]. intros prev. constructor.
  - intros H. apply (inj Some) in H as <-.
    apply (call_sync_keeps destroy); [|done]. apply keeps_destroy.
  - destruct (reconnectInterval (world l)); [|done].
    intros H. apply (inj Some) in H as <-.
    apply (call_async_keeps _ (void checkConnection)); [|done].
    apply keeps_void, keeps_checkConnection.
  - destruct (tasks l !! i) as [[n [a|err|rq k]]|] eqn:Ei; try done.
    destruct (settle reachable rq (world l)) as [[r w]|] eqn:Es; [|done].
    destruct (Async.advance (k r) w []) as [[w' detached] st] eqn:E.
    pose proof (Forall_lookup_1 _ _ _ _ Hl Ei) as Hk. simpl in Hk.
    destruct (advance_keeps (k r) (Hk r) _ _ _ _ _ E) as (HR & Hdet & Hst); [done|].
    pose proof (enroll_keeps detached (length (tasks l)) Hdet) as Hts.
    destruct (enroll _ detached) as [ts es]. intros [= <-]. simpl in *. split.
    + apply (R_trans _ w); [|done]. by apply (R_settle reachable rq _ r).
    + apply Forall_app. split; [|done]. by apply Forall_insert.
Qed.

Lemma exec_keeps (events : list Event) (l l' : Loop) :
  tasks_keep R l -> exec l events = Some l' -> R (world l) (world l') /\ tasks_keep R l'.
Proof.
  revert l. induction events as [|e events IH]; intros l Hl; simpl.
  - by intros [= <-].
  - destruct (turn l e) as [l1|] eqn:E; [|done].
    destruct (turn_keeps _ _ _ Hl E) as (HR1 & Hl1). intros Hexec.
    destruct (IH _ Hl1 Hexec) as (HR2 & Hl'). split; [|done].
    by apply (R_trans _ (world l1)).
Qed.

(** The tasks of a new adapter: the bootstrap that the constructor has
    started. *)
Lemma boot_keeps (credentials : MysqlAdapterCredentials) (d : Database) :
  tasks_keep R (boot credentials d).
Proof.
  pose (w := set_this_pool 0 (set_pools (fun ps => ps ++ [fresh_pool credentials])
               (set_this_credentials credentials
                  {| pools := []; db := d; this_pool := 0;
                     this_credentials := credentials;
                     reconnectInterval := false; console := [] |}))).
  destruct (Async.advance init w []) as [[w1 detached] st] eqn:E.
  destruct (advance_keeps init keeps_init _ _ _ _ _ E) as (_ & _ & Hst); [done|].
  unfold tasks_keep. simpl. apply Forall_singleton. simpl.
  simpl in E. injection E as _ _ <-. simpl in Hst. intros r. by apply keeps_void.
Qed.

End Keeps.

(** ** The table only grows *)

Lemma grows_refl (d : Database) : grows d d.
Proof. intros t Ht. by exists t. Qed.

Lemma grows_trans (d1 d2 d3 : Database) : grows d1 d2 -> grows d2 d3 -> grows d1 d3.
Proof.
  intros H12 H23 t1 Ht1. destruct (H12 t1 Ht1) as (t2 & Ht2 & Hrows12).
  destruct (H23 t2 Ht2) as (t3 & Ht3 & Hrows23). exists t3. split; [done|].
  by trans (rows t2).
Qed.

Lemma run_sql_grows (q : Sql) (d : Database) : grows d (run_sql q d).2.
Proof.
  intros t Ht. destruct q as [from|values| |]; simpl; rewrite Ht; simpl; try by exists t.
  destruct values as [|[v1|] [|[v2|] [|[v3|] [|[v4|] [|[v5|] [|[v6|] [|]]]]]]];
    simpl; try by exists t.
  eexists. split; [reflexivity|]. simpl. by apply prefix_app_r.
Qed.

Lemma settle_grows (reachable : bool) (rq : Request) (w : World) (r : Reply) (w' : World) :
  settle reachable rq w = Some (r, w') -> append_only w w'.
Proof.
  unfold append_only, settle. destruct rq as [p|c q|c q|p].
  - destruct (pools w !! p) as [pl|]; [|intros [= <- <-]; apply grows_refl].
    destruct (closed pl); [intros [= <- <-]; apply grows_refl|].
    destruct reachable; simpl; [|intros [= <- <-]; apply grows_refl].
    destruct (_ <? _)%nat; [intros [= <- <-]; apply grows_refl|].
    destruct (waitForConnections _); [done|]. intros [= <- <-]. apply grows_refl.
  - destruct reachable; [|intros [= <- <-]; apply grows_refl].
    pose proof (run_sql_grows q (db w)) as H. destruct (run_sql q (db w)) as [r' d].
    by intros [= <- <-].
  - destruct reachable; [|intros [= <- <-]; apply grows_refl].
    pose proof (run_sql_grows q (db w)) as H. destruct (run_sql q (db w)) as [r' d].
    by intros [= <- <-].
  - destruct reachable; intros [= <- <-]; apply grows_refl.
Qed.

Ltac grows_laws :=
  first [ by intros; apply grows_refl
        | by intros ? ? ?; apply grows_trans
        | by apply settle_grows ].

Lemma append_only_exec (events : list Event) (l l' : Loop) :
  tasks_keep append_only l -> exec l events = Some l' ->
  append_only (world l) (world l') /\ tasks_keep append_only l'.
Proof. apply exec_keeps; grows_laws. Qed.

Lemma append_only_boot (credentials : MysqlAdapterCredentials) (d : Database) :
  tasks_keep append_only (boot credentials d).
Proof. apply boot_keeps; grows_laws. Qed.

(** X20. The adapter never drops the table and never deletes or changes
    a row. Between any two moments of any execution (whatever calls,
    ticks, probe failures, recreations and server failures happen, in
    whatever order), a table that was there is still there and the rows
    it had are its first rows, unchanged. *)
Theorem history_is_append_only (credentials : MysqlAdapterCredentials) (d : Database)
    (events1 events2 : list Event) (l1 l2 : Loop) :
  exec (boot credentials d) events1 = Some l1 ->
  exec l1 events2 = Some l2 ->
  grows (db (world l1)) (db (world l2)).
Proof.
  intros H1 H2.
  destruct (append_only_exec _ _ _ (append_only_boot credentials d) H1) as (_ & Hl1).
  by destruct (append_only_exec _ _ _ Hl1 H2).
Qed.

Lemma history_is_append_only_witness :
  match exec (boot example_credentials stocked_server)
          [Call_save example_ctx; Settle 1 true; Settle 1 true] with
  | Some l => grows stocked_server (db (world l))
  | None => False
  end.
Proof.
  destruct (exec _ _) as [l|] eqn:E; [|by vm_compute in E].
  exact (history_is_append_only example_credentials stocked_server [] _ _ l eq_refl E).
Defined.

(** ** A cleared interval *)

Lemma exec_app (l : Loop) (events1 events2 : list Event) :
  exec l (events1 ++ events2)
  = match exec l events1 with
    | Some l1 => exec l1 events2
    | None => None
    end.
Proof.
  revert l. induction events1 as [|e events1 IH]; intros l; simpl; [done|].
  by destruct (turn l e).
Qed.

Lemma settle_disarmed (reachable : bool) (rq : Request) (w : World) (r : Reply)
    (w' : World) :
  settle reachable rq w = Some (r, w') -> reconnectInterval w' = reconnectInterval w.
Proof.
  unfold settle. destruct rq as [p|c q|c q|p].
  - destruct (pools w !! p) as [pl|]; [|by intros [= <- <-]].
    destruct (closed pl); [by intros [= <- <-]|].
    destruct reachable; simpl; [|by intros [= <- <-]].
    destruct (_ <? _)%nat; [by intros [= <- <-]|].
    destruct (waitForConnections _); [done|]. by intros [= <- <-].
  - destruct reachable; [|by intros [= <- <-]].
    destruct (run_sql q (db w)) as [r' d']. by intros [= <- <-].
  - destruct reachable; [|by intros [= <- <-]].
    destruct (run_sql q (db w)) as [r' d']. by intros [= <- <-].
  - destruct reachable; by intros [= <- <-].
Qed.

Ltac disarmed_laws :=
  unfold stays_disarmed;
  first [ by intros reachable rq w r w' Hs Hw; rewrite (settle_disarmed _ _ _ _ _ Hs)
        | by intros w1 w2 w3 H12 H23 H1; apply H23, H12
        | by intros; simpl ].

Lemma stays_disarmed_turn (l l' : Loop) (e : Event) :
  tasks_keep stays_disarmed l -> turn l e = Some l' ->
  stays_disarmed (world l) (world l') /\ tasks_keep stays_disarmed l'.
Proof. apply turn_keeps; disarmed_laws. Qed.

Lemma stays_disarmed_exec (events : list Event) (l l' : Loop) :
  tasks_keep stays_disarmed l -> exec l events = Some l' ->
  stays_disarmed (world l) (world l') /\ tasks_keep stays_disarmed l'.
Proof. apply exec_keeps; disarmed_laws. Qed.

Lemma stays_disarmed_boot (credentials : MysqlAdapterCredentials) (d : Database) :
  tasks_keep stays_disarmed (boot credentials d).
Proof. apply boot_keeps; disarmed_laws. Qed.

Lemma no_tick_once_cleared (events : list Event) (l l' : Loop) :
  tasks_keep stays_disarmed l ->
  reconnectInterval (world l) = false ->
  exec l events = Some l' ->
  reconnectInterval (world l') = false /\ Tick ∉ events.
Proof.
  revert l. induction events as [|e events IH]; intros l Hl Hoff.
  - intros [= <-]. split; [done|]. apply not_elem_of_nil.
  - rewrite exec_cons. destruct (turn l e) as [l1|] eqn:E; [|done].
    intros Hexec. destruct (stays_disarmed_turn _ _ _ Hl E) as (Hstay & Hl1).
    destruct (IH l1 Hl1 (Hstay Hoff) Hexec) as (Hoff' & Hnotin). split; [done|].
    apply not_elem_of_cons. split; [|done].
    intros <-. unfold turn in E. by rewrite Hoff in E.
Qed.

(** X21. Once [destroy] has been called no probe starts any more, ever:
    in every execution the interval stays cleared after it, whatever
    else happens (calls that are still in flight, a recreation that is
    under way, later calls), so no later event is a tick of the
    interval. *)
Theorem cleared_interval_stays_cleared (credentials : MysqlAdapterCredentials)
    (d : Database) (events1 events2 : list Event) (l : Loop) :
  exec (boot credentials d) (events1 ++ Call_destroy :: events2) = Some l ->
  reconnectInterval (world l) = false /\ Tick ∉ events2.
Proof.
  rewrite exec_app. destruct (exec (boot credentials d) events1) as [l1|] eqn:E1; [|done].
  destruct (stays_disarmed_exec _ _ _ (stays_disarmed_boot credentials d) E1) as (_ & Hl1).
  rewrite exec_cons.
  destruct (stays_disarmed_turn l1 (call_sync destroy l1) Call_destroy Hl1 eq_refl)
    as (_ & Hl2).
  change (turn l1 Call_destroy) with (Some (call_sync destroy l1)). cbv iota.
  apply no_tick_once_cleared; [done|].
  by destruct l1 as [[ps d1 p c armed con] ts tr].
Qed.

Lemma cleared_interval_stays_cleared_witness :
  match exec (boot example_credentials ready_server)
          [Call_destroy; Call_save example_ctx; Settle 2 true] with
  | Some l => reconnectInterval (world l) = false
  | None => False
  end.
Proof.
  destruct (exec _ _) as [l|] eqn:E; [|by vm_compute in E].
  exact (proj1 (cleared_interval_stays_cleared example_credentials ready_server []
                  [Call_save example_ctx; Settle 2 true] l E)).
Defined.

End InvariantFacts.

(* ===================================================================== *)
(** * Options that JSON does not represent as they are *)
(* ===================================================================== *)

Module RoundTripFacts.
Import Behaviour CallFacts.

#[local] Open Scope nat_scope.

Lemma normalise_array (items : list JsValue) :
  normalise (JsArray items) = JsArray (map element_of items).
Proof. reflexivity. Qed.

Lemma normalise_object (props : list (string * JsValue)) :
  normalise (JsObject props) = JsObject (omap property_of props).
Proof. reflexivity. Qed.

Lemma keys_omap (k : string) (props : list (string * JsValue)) :
  existsb (String.eqb k) (map fst (omap property_of props)) = true ->
  existsb (String.eqb k) (map fst props) = true.
Proof.
  induction props as [|[k' x] props IH]; [done|].
  destruct x; simpl; intros H; rewrite orb_true_iff;
    [right; by apply IH
    |rewrite orb_true_iff in H; destruct H as [H|H]; [by left|right; by apply IH]..].
Qed.

Lemma distinct_omap (props : list (string * JsValue)) :
  distinct (map fst props) = true -> distinct (map fst (omap property_of props)) = true.
Proof.
  induction props as [|[k x] props IH]; [done|].
  cbn [map fst distinct]. intros [Hk Hd]%andb_true_iff. specialize (IH Hd).
  assert (negb (existsb (String.eqb k) (map fst (omap property_of props))) = true) as Hk'.
  { apply negb_true_iff. apply negb_true_iff in Hk.
    destruct (existsb _ (map fst (omap _ _))) eqn:E; [|done].
    apply keys_omap in E. congruence. }
  destruct x; cbn [omap list_omap property_of snd fst map distinct];
    rewrite ?Hk', ?IH; done.
Qed.

Lemma omap_cons_of {A B : Type} (f : A -> option B) (x : A) (l : list A) :
  omap f (x :: l) = match f x with
                    | Some y => y :: omap f l
                    | None => omap f l
                    end.
Proof. reflexivity. Qed.

Lemma element_of_element (x : JsValue) :
  (x <> JsUndefined -> json_serializable (normalise x) = true) ->
  serialize (normalise x) = serialize x ->
  element (element_of x) = element x /\ json_serializable (element_of x) = true.
Proof.
  intros H1 H2. unfold element, element_of. remember (normalise x) as y eqn:Ey.
  destruct x; try done; (split; [by rewrite H2|by apply H1]).
Qed.

Lemma property_of_member (k : string) (x : JsValue) :
  (x <> JsUndefined -> json_serializable (normalise x) = true) ->
  serialize (normalise x) = serialize x ->
  match property_of (k, x) with
  | Some kx' => member kx' = member (k, x) /\ json_serializable kx'.2 = true
  | None => member (k, x) = None
  end.
Proof.
  intros H1 H2. unfold property_of, member. cbn [fst snd].
  remember (normalise x) as y eqn:Ey.
  destruct x; try done; cbn [fst snd]; (split; [by rewrite H2|by apply H1]).
Qed.

Lemma normalise_serialize (v : JsValue) :
  storable v = true ->
  (v <> JsUndefined -> json_serializable (normalise v) = true) /\
  serialize (normalise v) = serialize v.
Proof.
  induction v as [| |b|n|s|items IH|props IH] using JsValue_nested_ind; try done.
  - intros Hitems. rewrite normalise_array, !JsonFacts.serialize_array.
    change (storable (JsArray items)) with (forallb storable items) in Hitems.
    change (json_serializable (JsArray ?l)) with (forallb json_serializable l).
    assert (forallb json_serializable (map element_of items) = true /\
            map element (map element_of items) = map element items) as [H1 H2].
    { induction IH as [|x items Hx _ IHitems]; [done|].
      cbn [forallb] in Hitems. apply andb_true_iff in Hitems as [Hs Hrest].
      destruct (IHitems Hrest) as [H1 H2]. destruct (Hx Hs) as [Hx1 Hx2].
      destruct (element_of_element x Hx1 Hx2) as [He Hser].
      cbn [map forallb]. by rewrite H1, H2, He, Hser. }
    split; [done|]. by rewrite H2.
  - intros Hprops. rewrite normalise_object, !JsonFacts.serialize_object.
    change (storable (JsObject props))
      with (distinct (map fst props) && forallb (fun kx => storable kx.2) props) in Hprops.
    apply andb_true_iff in Hprops as [Hkeys Hprops].
    change (json_serializable (JsObject ?l))
      with (distinct (map fst l) && forallb (fun kx => json_serializable kx.2) l).
    rewrite (distinct_omap _ Hkeys).
    assert (forallb (fun kx => json_serializable kx.2) (omap property_of props) = true /\
            omap member (omap property_of props) = omap member props) as [H1 H2].
    { clear Hkeys. induction IH as [|[k x] props Hx _ IHprops]; [done|].
      cbn [forallb snd] in Hprops. apply andb_true_iff in Hprops as [Hs Hrest].
      destruct (IHprops Hrest) as [H1 H2]. destruct (Hx Hs) as [Hx1 Hx2].
      pose proof (property_of_member k x Hx1 Hx2) as Hm.
      rewrite (omap_cons_of property_of), (omap_cons_of member (k, x)).
      destruct (property_of (k, x)) as [kx'|].
      - destruct Hm as [Hm Hser]. rewrite (omap_cons_of member kx'), Hm, H2.
        cbn [forallb]. by rewrite Hser, H1.
      - by rewrite Hm. }
    split; [done|]. by rewrite H2.
Qed.

Lemma JSON_stringify_normalise (v : JsValue) :
  v <> JsUndefined ->
  storable v = true ->
  exists text, JSON_stringify v = Some text /\ JSON_parse text = Some (normalise v).
Proof.
  intros Hv Hs. destruct (normalise_serialize v Hs) as [Hser Heq].
  destruct (JsonFacts.JSON_parse_stringify _ (Hser Hv)) as (text & Htext & Hparse).
  exists text. split; [|done]. unfold JSON_stringify in *. by rewrite <- Heq.
Qed.

(** X22. [save] followed at once by [getPrevByNumber] for the same
    number, for options that JSON does not keep as they are: the row
    that comes back has the five text fields of [ctx], and as [options]
    the value that [JSON.parse] makes of the text [JSON.stringify] wrote:
    every [undefined] element of an array has become [null] and every
    property whose value was [undefined] is gone, at every depth. *)
Theorem save_then_getPrevByNumber_normalises (ctx : Ctx) (reach : list bool) (w : World)
    (t : Table) :
  available 1 w ->
  history (db w) = Some t ->
  ids_below_auto_increment t ->
  collation (db w) (ctx_from ctx) (ctx_from ctx) = true ->
  ctx_options ctx <> JsUndefined ->
  storable (ctx_options ctx) = true ->
  exists w' row,
    run (save ctx;; getPrevByNumber (ctx_from ctx))
        (true :: true :: true :: true :: reach) w
    = (w', reach, Fulfilled (PrevRow row)) /\
    options row = normalise (ctx_options ctx) /\
    ref row = ctx_ref ctx /\ keyword row = ctx_keyword ctx /\
    Mysql.answer row = ctx_answer ctx /\ refSerialize row = ctx_refSerialize ctx /\
    phone row = ctx_from ctx.
Proof.
  intros Hpool Hhistory Hids Hcollation Hdefined Hstorable.
  destruct (JSON_stringify_normalise _ Hdefined Hstorable) as (text & Htext & Hparse).
  unfold mbind, Async_bind. rewrite run_bind, (run_save ctx text _ w t) by done.
  set (row := inserted ctx text (db w) t).
  set (w1 := given_back _ _).
  assert (available 1 w1) as Hpool1.
  { destruct Hpool as (pl & Hpl & Hopen & Hroom). exists pl.
    unfold w1, given_back, taken, release_connection. simpl.
    rewrite !list_lookup_alter_eq, Hpl. simpl. by destruct pl. }
  rewrite (run_getPrevByNumber _ _ w1 {| rows := rows t ++ [row];
                                         auto_increment := (auto_increment t + 1)%Z |})
    by done.
  pose proof (order_by_id_desc_head
                (where_phone (db w1) (ctx_from ctx) (rows t ++ [row]))) as Hhead.
  cbn [rows] in *.
  assert (row ∈ where_phone (db w1) (ctx_from ctx) (rows t ++ [row])) as Hrow.
  { apply list_elem_of_filter. split; [done|]. set_solver. }
  destruct (order_by_id_desc _) as [|first sorted]; [rewrite Hhead in Hrow; set_solver|].
  destruct Hhead as [Hfirst Hmax].
  assert (first = row) as ->.
  { apply list_elem_of_filter in Hfirst as [_ [Hold| ->%list_elem_of_singleton]%elem_of_app];
      [|done].
    specialize (Hmax row Hrow). specialize (Hids first Hold). simpl in Hmax. lia. }
  change (options row) with text. rewrite Hparse.
  by eexists _, _.
Qed.

Lemma save_then_getPrevByNumber_normalises_witness :
  let w := world (boot example_credentials ready_server) in
  let ctx := {| ctx_ref := "ans_1"; ctx_keyword := "key_1"; ctx_answer := "hi";
                ctx_refSerialize := "ser_1"; ctx_from := "5491100000000";
                ctx_options :=
                  JsObject [("media", JsUndefined);
                            ("buttons", JsArray [JsUndefined; JsNumber 2])] |} in
  exists w' row,
    run (save ctx;; getPrevByNumber (ctx_from ctx)) [true; true; true; true] w
    = (w', [], Fulfilled (PrevRow row)) /\
    options row = JsObject [("buttons", JsArray [JsNull; JsNumber 2])].
Proof.
  intros w ctx.
  destruct (save_then_getPrevByNumber_normalises ctx [] w {| rows := []; auto_increment := 1 |})
    as (w' & row & Hrun & Hoptions & _).
  - exists (fresh_pool example_credentials). repeat split; simpl; lia.
  - reflexivity.
  - intros r Hr. by apply elem_of_nil in Hr.
  - reflexivity.
  - discriminate.
  - reflexivity.
  - exists w', row. split; [exact Hrun|]. rewrite Hoptions. reflexivity.
Defined.

End RoundTripFacts.
